(** * A shallow embedding of the navigation core of the Angular router
    (modules/@angular/router/src/router.ts): the guard-phase tree diff
    [PreActivation], the guard evaluation [checkGuards], the commit-phase
    tree diff [ActivateRoutes] and the navigation sequencer [Router]. *)

From Stdlib Require Import List String Bool Arith Lia.
Import ListNotations.
#[local] Set Warnings "-register-all".
Open Scope list_scope.

(* ------------------------------------------------------------------ *)
(** ** Shared data model *)

(** Errors raised by the code: a JS [TypeError] (property read on
    [null]/[undefined]), the two [getOutlet] errors, and an arbitrary
    cause thrown or rejected by a collaborator (guard, resolver, matcher). *)
Inductive Error : Type :=
| TypeError
| CannotFindOutlet (outlet : string)
| Thrown (cause : nat).

Inductive result (A : Type) : Type :=
| Ok (a : A)
| Err (e : Error).
Arguments Ok {A} a.
Arguments Err {A} e.

Definition bind {A B : Type} (m : result A) (k : A -> result B) : result B :=
  match m with Ok a => k a | Err e => Err e end.
Notation "x <- m ;; k" := (bind m (fun x => k))
  (at level 61, m at next level, right associativity).

(** A route-table entry ([Route] of config.ts); it is compared by identity,
    which we model by a stable identifier [cfg_id]. Guards are tokens. *)
Definition Token := nat.

Record RouteConfig : Type := mkRouteConfig {
  cfg_id : nat;
  canActivate : list Token;
  canActivateChild : list Token;
  canDeactivate : list Token
}.

(** [future._routeConfig === curr._routeConfig] (both may be [null]). *)
Definition same_config (a b : option RouteConfig) : bool :=
  match a, b with
  | Some x, Some y => Nat.eqb (cfg_id x) (cfg_id y)
  | None, None => true
  | _, _ => false
  end.

Definition Params := list (string * string).

(** [ActivatedRouteSnapshot]: the fields the pipeline reads. *)
Record Snap : Type := mkSnap {
  snap_id : nat;
  outlet : string;
  params : Params;
  component : option nat;
  routeConfig : option RouteConfig
}.

(** [TreeNode<T>] of utils/tree.ts. *)
Inductive TreeNode (A : Type) : Type :=
| TNode (value : A) (children : list (TreeNode A)).
Arguments TNode {A} value children.

Definition value {A} (t : TreeNode A) : A := let 'TNode v _ := t in v.
Definition children {A} (t : TreeNode A) : list (TreeNode A) :=
  let 'TNode _ cs := t in cs.

(** JS objects used as string-keyed maps: association lists in key
    insertion order; assignment to an existing key keeps its position. *)
Fixpoint js_get {V} (m : list (string * V)) (k : string) : option V :=
  match m with
  | [] => None
  | (k', v) :: m' => if String.eqb k k' then Some v else js_get m' k
  end.

Fixpoint js_set {V} (m : list (string * V)) (k : string) (v : V)
  : list (string * V) :=
  match m with
  | [] => [(k, v)]
  | (k', v') :: m' =>
      if String.eqb k k' then (k', v) :: m' else (k', v') :: js_set m' k v
  end.

Fixpoint js_delete {V} (m : list (string * V)) (k : string)
  : list (string * V) :=
  match m with
  | [] => []
  | (k', v') :: m' => if String.eqb k k' then m' else (k', v') :: js_delete m' k
  end.

(** Modelled from the spec: [shallowEqual] of utils/collection.ts (not
    among the sources) -- "parameters are identical": same number of keys
    and every key of [a] bound to the same value in [b]. *)
Definition shallowEqual (a b : Params) : bool :=
  Nat.eqb (List.length a) (List.length b) &&
  forallb (fun '(k, v) =>
             match js_get b k with
             | Some v' => String.eqb v v'
             | None => false
             end) a.

(** [nodeChildrenAsMap]: children of a node keyed by their outlet name. *)
Definition nodeChildrenAsMap {A} (outletOf : A -> string)
  (node : option (TreeNode A)) : list (string * TreeNode A) :=
  match node with
  | Some n => fold_left (fun m c => js_set m (outletOf (value c)) c) (children n) []
  | None => []
  end.

(** [ActivatedRoute]: a live route, compared by object identity
    ([ar_id]), exposing its current snapshot. *)
Record ActivatedRoute : Type := mkAR {
  ar_id : nat;
  snapshot : Snap
}.

(** The slot registry [RouterOutletMap] and its [RouterOutlet]s. An
    outlet is activated when it holds a mounted component (its handle) and
    the route it was activated with; [outletMap] is the registry of the
    outlets declared by the mounted component. Keys are the outlet names in
    registration order. *)
Inductive RouterOutlet : Type :=
| Outlet (activated : option (nat * ActivatedRoute)) (outletMap : OutletMap)
with OutletMap : Type :=
| OMNil
| OMCons (name : string) (o : RouterOutlet) (rest : OutletMap).

Definition isActivated (o : RouterOutlet) : bool :=
  let 'Outlet a _ := o in match a with Some _ => true | None => false end.

(** [outlet.component]: the mounted component's handle. *)
Definition outlet_component (o : RouterOutlet) : option nat :=
  let 'Outlet a _ := o in option_map fst a.

Definition outlet_map_of (o : RouterOutlet) : OutletMap :=
  let 'Outlet _ m := o in m.

(** [outletMap._outlets[name]]. *)
Fixpoint outlets_get (m : OutletMap) (n : string) : option RouterOutlet :=
  match m with
  | OMNil => None
  | OMCons n' o rest => if String.eqb n n' then Some o else outlets_get rest n
  end.

(* ------------------------------------------------------------------ *)
(** ** The guard phase: [PreActivation] *)

Module PreActivation.

(** The second argument of [CanDeactivate] is typed as a snapshot, but the
    vacated-slot loop of [traverseChildRoutes] passes the [TreeNode] it
    iterates over; both shapes are kept. *)
Inductive RouteArg : Type :=
| RSnap (s : Snap)
| RTreeNode (t : TreeNode Snap).

(** The pending check list: [CanActivate] carries the path from the root
    to the node, [CanDeactivate] the mounted component and the route. *)
Inductive Check : Type :=
| CanActivate (path : list Snap)
| CanDeactivate (component : option nat) (route : RouteArg).

(** [deactivateOutletAndItChildren] on an existing outlet and
    [deactivateOutletMap] on an existing registry (read-only here). *)
Fixpoint deactivate_outlet (route : RouteArg) (o : RouterOutlet) {struct o}
  : list Check :=
  match o with
  | Outlet (Some (c, _)) m => deactivate_map m ++ [CanDeactivate (Some c) route]
  | Outlet None _ => []
  end
with deactivate_map (m : OutletMap) : list Check :=
  match m with
  | OMNil => []
  | OMCons _ v rest =>
      match v with
      | Outlet (Some (_, ar)) _ => deactivate_outlet (RSnap (snapshot ar)) v
      | Outlet None _ => []
      end ++ deactivate_map rest
  end.

(** [if (outlet && outlet.isActivated) { ... }] *)
Definition deactivateOutletAndItChildren (route : RouteArg)
  (outlet : option RouterOutlet) (checks : list Check) : list Check :=
  match outlet with
  | Some o => checks ++ deactivate_outlet route o
  | None => checks
  end.

(** [forEach(outletMap._outlets, ...)]: a [null] registry is a TypeError. *)
Definition deactivateOutletMap (outletMap : option OutletMap)
  (checks : list Check) : result (list Check) :=
  match outletMap with
  | Some m => Ok (checks ++ deactivate_map m)
  | None => Err TypeError
  end.

(** [futureNode.children.forEach(c => { traverseRoutes(...); delete
    prevChildren[c.value.outlet]; })]; returns the remaining previous
    children. *)
Fixpoint children_loop
  (tr : TreeNode Snap -> option (TreeNode Snap) -> list Check -> result (list Check))
  (cs : list (TreeNode Snap)) (prev : list (string * TreeNode Snap))
  (checks : list Check) : result (list Check * list (string * TreeNode Snap)) :=
  match cs with
  | [] => Ok (checks, prev)
  | c :: cs' =>
      checks' <- tr c (js_get prev (outlet (value c))) checks ;;
      children_loop tr cs' (js_delete prev (outlet (value c))) checks'
  end.

(** [forEach(prevChildren, (v, k) =>
      this.deactivateOutletAndItChildren(v, outletMap._outlets[k]))] *)
Fixpoint deactivate_remaining (prev : list (string * TreeNode Snap))
  (outletMap : option OutletMap) (checks : list Check) : result (list Check) :=
  match prev with
  | [] => Ok checks
  | (k, v) :: prev' =>
      match outletMap with
      | None => Err TypeError
      | Some m =>
          deactivate_remaining prev' outletMap
            (deactivateOutletAndItChildren (RTreeNode v) (outlets_get m k) checks)
      end
  end.

Definition traverseChildRoutes_with
  (tr : TreeNode Snap -> option (TreeNode Snap) -> option OutletMap -> list Check ->
        result (list Check))
  (futureChildren : list (TreeNode Snap)) (currNode : option (TreeNode Snap))
  (outletMap : option OutletMap) (checks : list Check) : result (list Check) :=
  r <- children_loop (fun c prev acc => tr c prev outletMap acc) futureChildren
         (nodeChildrenAsMap outlet currNode) checks ;;
  deactivate_remaining (snd r) outletMap (fst r).

(** [traverseRoutes], with [traverseChildRoutes] for its children. The
    check list is threaded as an accumulator. *)
Fixpoint traverseRoutes (futureNode : TreeNode Snap) (currNode : option (TreeNode Snap))
  (parentOutletMap : option OutletMap) (futurePath : list Snap)
  (checks : list Check) {struct futureNode} : result (list Check) :=
  let 'TNode future fchildren := futureNode in
  let traverseChildRoutes currNode' outletMap acc :=
    traverseChildRoutes_with
      (fun c prev om acc' => traverseRoutes c prev om (futurePath ++ [value c]) acc')
      fchildren currNode' outletMap acc in
  let curr := option_map value currNode in
  let outlet := match parentOutletMap with
                | Some m => outlets_get m (outlet future)
                | None => None
                end in
  match curr with
  | Some c =>
    if same_config (routeConfig future) (routeConfig c) then
      (* reusing the node *)
      checks1 <- (if negb (shallowEqual (params future) (params c)) then
                    match outlet with
                    | Some o => Ok (checks ++ [CanDeactivate (outlet_component o) (RSnap c);
                                               CanActivate futurePath])
                    | None => Err TypeError        (* [outlet.component] on undefined *)
                    end
                  else Ok checks) ;;
      match component future with
      | Some _ => traverseChildRoutes currNode (option_map outlet_map_of outlet) checks1
      | None => traverseChildRoutes currNode parentOutletMap checks1
      end
    else
      checks1 <- match component c with
                 | Some _ => Ok (deactivateOutletAndItChildren (RSnap c) outlet checks)
                 | None => deactivateOutletMap parentOutletMap checks
                 end ;;
      let checks2 := checks1 ++ [CanActivate futurePath] in
      match component future with
      | Some _ => traverseChildRoutes None (option_map outlet_map_of outlet) checks2
      | None => traverseChildRoutes None parentOutletMap checks2
      end
  | None =>
      let checks2 := checks ++ [CanActivate futurePath] in
      match component future with
      | Some _ => traverseChildRoutes None (option_map outlet_map_of outlet) checks2
      | None => traverseChildRoutes None parentOutletMap checks2
      end
  end.

Definition traverseChildRoutes (futureNode : TreeNode Snap)
  (currNode : option (TreeNode Snap)) (outletMap : option OutletMap)
  (futurePath : list Snap) (checks : list Check) : result (list Check) :=
  traverseChildRoutes_with
    (fun c prev om acc => traverseRoutes c prev om (futurePath ++ [value c]) acc)
    (children futureNode) currNode outletMap checks.

(** [traverse(parentOutletMap)] from an empty check list. *)
Definition traverse (future : TreeNode Snap) (curr : option (TreeNode Snap))
  (parentOutletMap : OutletMap) : result (list Check) :=
  traverseChildRoutes future curr (Some parentOutletMap) [value future] [].

(** *** [checkGuards] *)

(** A guard's outcome, compared with [result === true]. *)
Inductive GVal : Type :=
| GBool (b : bool)
| GOther (v : nat).

Definition is_true (v : GVal) : bool :=
  match v with GBool true => true | _ => false end.

(** One guard invocation: the token and the arguments it is called with. *)
Inductive GuardCall : Type :=
| CallCanActivate (t : Token) (future : Snap)
| CallCanActivateChild (t : Token) (future : Snap)
| CallCanDeactivate (t : Token) (component : option nat) (curr : Snap).

(** The observables built by [checkGuards]: [Observable.of(v)], one
    wrapped guard invocation, [andObservables(Observable.from(xs))] (that
    is [mergeAll().every(r => r === true)]), and a synchronous throw inside
    a [map] callback. *)
Inductive Obs : Type :=
| OOf (v : GVal)
| OGuard (g : GuardCall)
| OAnd (xs : list Obs)
| OThrow (e : Error).

Definition ca_tokens (s : Snap) : list Token :=
  match routeConfig s with Some c => canActivate c | None => [] end.

Definition cac_tokens (s : Snap) : list Token :=
  match routeConfig s with Some c => canActivateChild c | None => [] end.

(** [runCanActivate(future)] *)
Definition runCanActivate (future : Snap) : Obs :=
  match ca_tokens future with
  | [] => OOf (GBool true)
  | ts => OAnd (map (fun t => OGuard (CallCanActivate t future)) ts)
  end.

(** [extractCanActivateChild(p)]: [null] when there is nothing to run. *)
Definition extractCanActivateChild (p : Snap) : option (Snap * list Token) :=
  match cac_tokens p with
  | [] => None
  | ts => Some (p, ts)
  end.

Fixpoint filter_some {A} (xs : list (option A)) : list A :=
  match xs with
  | [] => []
  | Some x :: xs' => x :: filter_some xs'
  | None :: xs' => filter_some xs'
  end.

(** [runCanActivateChild(path)]: [path.slice(0, path.length - 1).reverse()],
    each ancestor's guards run against the node [future]. *)
Definition runCanActivateChild (path : list Snap) (future : Snap) : Obs :=
  let canActivateChildGuards :=
    filter_some (map extractCanActivateChild (rev (removelast path))) in
  OAnd (map (fun d => OAnd (map (fun t => OGuard (CallCanActivateChild t future)) (snd d)))
            canActivateChildGuards).

(** [runCanDeactivate(component, curr)]: [curr._routeConfig] is undefined
    on a [TreeNode]. *)
Definition runCanDeactivate (component : option nat) (curr : RouteArg) : Obs :=
  match curr with
  | RSnap s =>
      match routeConfig s with
      | Some c =>
          match canDeactivate c with
          | [] => OOf (GBool true)
          | ts => OAnd (map (fun t => OGuard (CallCanDeactivate t component s)) ts)
          end
      | None => OOf (GBool true)
      end
  | RTreeNode _ => OOf (GBool true)
  end.

(** The per-check observable of the [map] callback of [checkGuards]; on an
    empty path [s.route] is undefined and [runCanActivate] throws. *)
Definition check_obs (s : Check) : Obs :=
  match s with
  | CanActivate path =>
      match rev path with
      | [] => OThrow TypeError
      | future :: _ => OAnd [runCanActivate future; runCanActivateChild path future]
      end
  | CanDeactivate c r => runCanDeactivate c r
  end.

Definition checkGuards (checks : list Check) : Obs :=
  match checks with
  | [] => OOf (GBool true)
  | _ => OAnd (map check_obs checks)
  end.

Section Run.
(** The value each guard invocation produces (after [wrapIntoObservable]). *)
Variable guard : GuardCall -> GVal.

(** Evaluation when every guard answers synchronously: [Observable.from]
    emits in order, and [every] completes on the first non-true value,
    unsubscribing from the source, so no later guard is invoked. Returns
    the emitted value and the guards invoked, in order. *)
Fixpoint run (o : Obs) : result (GVal * list GuardCall) :=
  match o with
  | OOf v => Ok (v, [])
  | OGuard g => Ok (guard g, [g])
  | OThrow e => Err e
  | OAnd xs =>
      (fix go (xs : list Obs) : result (GVal * list GuardCall) :=
         match xs with
         | [] => Ok (GBool true, [])
         | x :: xs' =>
             r <- run x ;;
             if is_true (fst r) then
               r' <- go xs' ;; Ok (fst r', snd r ++ snd r')
             else Ok (GBool false, snd r)
         end) xs
  end.
End Run.

(** All guard invocations of an observable, in subscription order. *)
Fixpoint calls (o : Obs) : list GuardCall :=
  match o with
  | OGuard g => [g]
  | OAnd xs => flat_map calls xs
  | _ => []
  end.

(** *** [closestLoadedConfig] *)
Section Lazy.
(** A lazily loaded configuration is stored by the config loader in the
    [_loadedConfig] field of the route config that loaded it. *)
Variable LoadedRouterConfig : Type.
Variable loadedConfig : RouteConfig -> option LoadedRouterConfig.

(** [closestLoadedConfig(state, snapshot)], given
    [state.pathFromRoot(snapshot)]: [s !== snapshot] compares identities. *)
Definition closestLoadedConfig (pathFromRoot : list Snap) (snapshot : Snap)
  : option LoadedRouterConfig :=
  let b := filter (fun s =>
                     match routeConfig s with
                     | Some config =>
                         match loadedConfig config with
                         | Some _ => negb (Nat.eqb (snap_id s) (snap_id snapshot))
                         | None => false
                         end
                     | None => false
                     end) pathFromRoot in
  match rev b with
  | [] => None
  | s :: _ => match routeConfig s with Some config => loadedConfig config | None => None end
  end.
End Lazy.

End PreActivation.

(* ------------------------------------------------------------------ *)
(** ** The commit phase: [ActivateRoutes] *)

Module ActivateRoutes.

(** Observable effects of the commit: advancing a live route's cell,
    mounting a component into the outlet [n] of the registry at path [p],
    unmounting it. *)
Inductive Act : Type :=
| Advance (r : ActivatedRoute)
| Mount (p : list string) (n : string) (r : ActivatedRoute)
| Unmount (p : list string) (n : string).

(** The UI: the root registry, each registry addressed by the path of
    outlet names leading to it; plus the log of effects. A path that does
    not lead to a live registry denotes a detached (empty) one. *)
Definition St := (OutletMap * list Act)%type.

Fixpoint map_at (m : OutletMap) (p : list string) : OutletMap :=
  match p with
  | [] => m
  | n :: p' =>
      match outlets_get m n with
      | Some o => map_at (outlet_map_of o) p'
      | None => OMNil
      end
  end.

Fixpoint outlets_update (m : OutletMap) (n : string) (f : RouterOutlet -> RouterOutlet)
  : OutletMap :=
  match m with
  | OMNil => OMNil
  | OMCons n' o rest =>
      if String.eqb n n' then OMCons n' (f o) rest else OMCons n' o (outlets_update rest n f)
  end.

Fixpoint update_map_at (m : OutletMap) (p : list string) (f : OutletMap -> OutletMap)
  : OutletMap :=
  match p with
  | [] => f m
  | n :: p' =>
      outlets_update m n (fun o => let 'Outlet a om := o in Outlet a (update_map_at om p' f))
  end.

(** Modelled from the spec: [RouterOutlet.deactivate()] (directives/
    router_outlet.ts, not among the sources) unmounts the component; the
    outlets it declared go away with it, so its registry is left empty
    ("a slot's nested registry only exists while the slot is activated").
    [deact_outlet]/[deact_map] are [deactivateOutletAndItChildren] /
    [deactivateOutletMap] of [ActivateRoutes] on the registry tree:
    the nested registry first, then [outlet.deactivate()]. *)
Fixpoint deact_outlet (p : list string) (n : string) (o : RouterOutlet) {struct o}
  : RouterOutlet * list Act :=
  match o with
  | Outlet (Some _) m => (Outlet None OMNil, snd (deact_map (p ++ [n]) m) ++ [Unmount p n])
  | Outlet None _ => (o, [])
  end
with deact_map (p : list string) (m : OutletMap) : OutletMap * list Act :=
  match m with
  | OMNil => (OMNil, [])
  | OMCons n o rest =>
      let '(o', a1) := deact_outlet p n o in
      let '(rest', a2) := deact_map p rest in
      (OMCons n o' rest', a1 ++ a2)
  end.

(** [deactivateOutletAndItChildren(outlet)] for the outlet [n] of the
    registry at [p] (absent outlet: nothing happens). *)
Definition deactivateOutletAndItChildren (p : list string) (n : string) (st : St) : St :=
  let '(root, log) := st in
  match outlets_get (map_at root p) n with
  | Some o =>
      let '(o', acts) := deact_outlet p n o in
      (update_map_at root p (fun m => outlets_update m n (fun _ => o')), log ++ acts)
  | None => st
  end.

(** [deactivateOutletMap(outletMap)] for the registry at [p]. *)
Definition deactivateOutletMap (p : list string) (st : St) : St :=
  let '(root, log) := st in
  let '(m', acts) := deact_map p (map_at root p) in
  (update_map_at root p (fun _ => m'), log ++ acts).

(** Modelled from the spec: [advanceActivatedRoute] (router_state.ts, not
    among the sources) pushes the new snapshot into the route's cell. *)
Definition advanceActivatedRoute (r : ActivatedRoute) (st : St) : St :=
  (fst st, snd st ++ [Advance r]).

(** [getOutlet(outletMap, route)]: the outlet is returned as its address. *)
Definition getOutlet (p : list string) (route : ActivatedRoute) (st : St)
  : result (list string * string) :=
  let n := outlet (snapshot route) in
  match outlets_get (map_at (fst st) p) n with
  | Some _ => Ok (p, n)
  | None => Err (CannotFindOutlet n)
  end.

(** Commit-phase computations run on the live UI and may throw midway;
    effects performed before a throw stay performed. *)
Inductive cresult : Type :=
| Done (st : St)
| Threw (e : Error) (st : St).

Definition cbind (m : cresult) (k : St -> cresult) : cresult :=
  match m with Done st => k st | Threw e st => Threw e st end.
Notation "st' <~ m ;; k" := (cbind m (fun st' => k))
  (at level 61, m at next level, right associativity).

(** Using an outlet found by [getOutlet]; a missing one throws. *)
Definition with_outlet (p : list string) (route : ActivatedRoute) (st : St)
  (k : list string * string -> cresult) : cresult :=
  match getOutlet p route st with
  | Ok o => k o
  | Err e => Threw e st
  end.

Section Commit.
(** Modelled from the spec: the UI-mount primitive. Mounting component
    [c] creates it, and the outlets of its template register themselves in
    the fresh registry handed to it: [template c] lists them, inactive. *)
Variable template : nat -> OutletMap.

(** [placeComponentIntoOutlet(outletMap, future, outlet)]:
    [outlet.activate(future, ..., outletMap)]. *)
Definition placeComponentIntoOutlet (c : nat) (future : ActivatedRoute)
  (outlet_ref : list string * string) (st : St) : St :=
  let '(p, n) := outlet_ref in
  let '(root, log) := st in
  (update_map_at root p
     (fun m => outlets_update m n (fun _ => Outlet (Some (c, future)) (template c))),
   log ++ [Mount p n future]).

Fixpoint act_children_loop
  (ar : TreeNode ActivatedRoute -> option (TreeNode ActivatedRoute) -> St -> cresult)
  (cs : list (TreeNode ActivatedRoute)) (prev : list (string * TreeNode ActivatedRoute))
  (st : St) : cresult * list (string * TreeNode ActivatedRoute) :=
  match cs with
  | [] => (Done st, prev)
  | c :: cs' =>
      match ar c (js_get prev (outlet (snapshot (value c)))) st with
      | Done st' => act_children_loop ar cs' (js_delete prev (outlet (snapshot (value c)))) st'
      | Threw e st' => (Threw e st', prev)
      end
  end.

Fixpoint act_deactivate_remaining (prev : list (string * TreeNode ActivatedRoute))
  (p : list string) (st : St) : St :=
  match prev with
  | [] => st
  | (k, _) :: prev' => act_deactivate_remaining prev' p (deactivateOutletAndItChildren p k st)
  end.

Definition activateChildRoutes_with
  (ar : TreeNode ActivatedRoute -> option (TreeNode ActivatedRoute) -> list string -> St ->
        cresult)
  (futureChildren : list (TreeNode ActivatedRoute))
  (currNode : option (TreeNode ActivatedRoute)) (p : list string) (st : St) : cresult :=
  let '(r, rest) := act_children_loop (fun c prev st' => ar c prev p st') futureChildren
                      (nodeChildrenAsMap (fun r => outlet (snapshot r)) currNode) st in
  st1 <~ r ;; Done (act_deactivate_remaining rest p st1).

(** [activateRoutes]; reuse is decided by identity of the live routes. *)
Fixpoint activateRoutes (futureNode : TreeNode ActivatedRoute)
  (currNode : option (TreeNode ActivatedRoute)) (parentOutletMap : list string)
  (st : St) {struct futureNode} : cresult :=
  let 'TNode future fchildren := futureNode in
  let activateChildRoutes currNode' p st' :=
    activateChildRoutes_with (fun c prev p' st'' => activateRoutes c prev p' st'')
      fchildren currNode' p st' in
  let replace (curr : option ActivatedRoute) :=
    st1 <~ match curr with
           | None => Done st
           | Some c =>
               match component (snapshot c) with
               | Some _ =>
                   with_outlet parentOutletMap future st (fun o =>
                     Done (deactivateOutletAndItChildren (fst o) (snd o) st))
               | None => Done (deactivateOutletMap parentOutletMap st)
               end
           end ;;
    match component (snapshot future) with
    | Some comp =>
        let st2 := advanceActivatedRoute future st1 in
        with_outlet parentOutletMap future st2 (fun o =>
          activateChildRoutes None (fst o ++ [snd o])
            (placeComponentIntoOutlet comp future o st2))
    | None => activateChildRoutes None parentOutletMap (advanceActivatedRoute future st1)
    end in
  match currNode with
  | Some (TNode curr _) =>
      if Nat.eqb (ar_id future) (ar_id curr) then
        (* reusing the node *)
        let st1 := advanceActivatedRoute future st in
        match component (snapshot future) with
        | Some _ =>
            with_outlet parentOutletMap future st1 (fun o =>
              activateChildRoutes currNode (fst o ++ [snd o]) st1)
        | None => activateChildRoutes currNode parentOutletMap st1
        end
      else replace (Some curr)
  | None => replace None
  end.

Definition activateChildRoutes (futureNode : TreeNode ActivatedRoute)
  (currNode : option (TreeNode ActivatedRoute)) (p : list string) (st : St) : cresult :=
  activateChildRoutes_with (fun c prev p' st' => activateRoutes c prev p' st')
    (children futureNode) currNode p st.

(** [new ActivateRoutes(futureState, currState).activate(rootOutletMap)]
    (publishing query parameters and fragment is not modelled). *)
Definition activate (futureState : TreeNode ActivatedRoute)
  (currState : option (TreeNode ActivatedRoute)) (st : St) : cresult :=
  activateChildRoutes futureState currState [] (advanceActivatedRoute (value futureState) st).

End Commit.

(** Modelled from the spec: [createRouterState] (create_router_state.ts,
    not among the sources). "Identity persists across navigations when the
    underlying route config node is reused; a fresh object is created only
    when the route is newly activated": a node whose previous counterpart
    at the same slot has the same route config keeps the previous live
    route; every other node gets a fresh one (identifiers from [fresh]). *)
Fixpoint create_node (curr : TreeNode Snap) (prev : option (TreeNode ActivatedRoute))
  (fresh : nat) {struct curr} : TreeNode ActivatedRoute * nat :=
  let 'TNode s cs := curr in
  let '(reused, pcs) :=
    match prev with
    | Some (TNode p pcs) =>
        if same_config (routeConfig s) (routeConfig (snapshot p))
        then (Some (ar_id p), nodeChildrenAsMap (fun r => outlet (snapshot r)) (Some (TNode p pcs)))
        else (None, [])
    | None => (None, [])
    end in
  let '(id, fresh1) := match reused with Some i => (i, fresh) | None => (fresh, S fresh) end in
  let '(kids, fresh2) :=
    fold_left (fun acc c =>
                 let '(ks, f) := acc in
                 let '(k, f') := create_node c (js_get pcs (outlet (value c))) f in
                 (ks ++ [k], f')) cs ([], fresh1) in
  (TNode (mkAR id s) kids, fresh2).

End ActivateRoutes.

(* ------------------------------------------------------------------ *)
(** ** The navigation sequencer: [Router.scheduleNavigation] and
    [Router.runNavigate] *)

Module Navigation.
Import PreActivation ActivateRoutes.

(** The router events (the pipeline-internal [RoutesRecognized] is left
    out with the stages that emit it). *)
Inductive Event : Type :=
| NavigationStart (id : nat) (url : string)
| NavigationEnd (id : nat) (url : string) (urlAfterRedirects : string)
| NavigationCancel (id : nat) (url : string)
| NavigationError (id : nat) (url : string) (error : Error).

(** Calls made on the [Location] collaborator. *)
Inductive LocOp : Type :=
| Go (path : string)
| ReplaceState (path : string).

Section Nav.
Variable UrlTree : Type.
(** The URL codec is a collaborator: only [serialize] is used here. *)
Variable serializeUrl : UrlTree -> string.
Variable template : nat -> OutletMap.

(** The router: the counter, the authoritative pair, the UI (root outlet
    registry and commit effects), the location and the event stream. *)
Record Router : Type := mkRouter {
  navigationId : nat;
  currentUrlTree : UrlTree;
  currentRouterState : TreeNode ActivatedRoute;
  ui : St;
  location_path : string;
  location_ops : list LocOp;
  events : list Event
}.

Definition emit (r : Router) (ev : Event) : Router :=
  mkRouter (navigationId r) (currentUrlTree r) (currentRouterState r) (ui r)
    (location_path r) (location_ops r) (events r ++ [ev]).

Definition set_pair (r : Router) (u : UrlTree) (s : TreeNode ActivatedRoute) : Router :=
  mkRouter (navigationId r) u s (ui r) (location_path r) (location_ops r) (events r).

Definition set_ui (r : Router) (st : St) : Router :=
  mkRouter (navigationId r) (currentUrlTree r) (currentRouterState r) st
    (location_path r) (location_ops r) (events r).

(** Modelled from the spec: the location collaborator (@angular/common,
    not among the sources). [go] pushes and [replaceState] replaces a
    history entry, both making [path] current; [isCurrentPathEqualTo]
    compares with the current path. *)
Definition location_go (r : Router) (path : string) : Router :=
  mkRouter (navigationId r) (currentUrlTree r) (currentRouterState r) (ui r)
    path (location_ops r ++ [Go path]) (events r).

Definition location_replaceState (r : Router) (path : string) : Router :=
  mkRouter (navigationId r) (currentUrlTree r) (currentRouterState r) (ui r)
    path (location_ops r ++ [ReplaceState path]) (events r).

Definition isCurrentPathEqualTo (r : Router) (path : string) : bool :=
  String.eqb (location_path r) path.

(** A scheduled navigation and where its promise chain stands. *)
Inductive Settle : Type :=
| SettledOk (navigationIsSuccessful : bool) (appliedUrl : UrlTree)
| SettledErr (e : Error).

Inductive Phase : Type :=
| Scheduled
| Running (storedState : TreeNode ActivatedRoute) (storedUrl : UrlTree)
| Settled (storedState : TreeNode ActivatedRoute) (storedUrl : UrlTree) (s : Settle)
| Resolved (b : bool)
| Rejected (e : Error).

Record Nav : Type := mkNav {
  nav_id : nat;
  nav_url : UrlTree;
  preventPushState : bool;
  phase : Phase
}.

Definition with_phase (n : Nav) (ph : Phase) : Nav :=
  mkNav (nav_id n) (nav_url n) (preventPushState n) ph.

(** [scheduleNavigation(url, preventPushState)]: [id = ++navigationId],
    [NavigationStart]; [runNavigate] is deferred to a later turn. *)
Definition scheduleNavigation (r : Router) (url : UrlTree) (prevent : bool)
  : Router * Nav :=
  let id := S (navigationId r) in
  (emit (mkRouter id (currentUrlTree r) (currentRouterState r) (ui r)
           (location_path r) (location_ops r) (events r))
        (NavigationStart id (serializeUrl url)),
   mkNav id url prevent Scheduled).

(** Entry of [runNavigate]: the first staleness check, then the captured
    [storedState]/[storedUrl]. *)
Definition runNavigate_entry (r : Router) (n : Nav) : Router * Nav :=
  match phase n with
  | Scheduled =>
      if negb (Nat.eqb (nav_id n) (navigationId r)) then
        (emit (location_go r (serializeUrl (currentUrlTree r)))
              (NavigationCancel (nav_id n) (serializeUrl (nav_url n))),
         with_phase n (Resolved false))
      else (r, with_phase n (Running (currentRouterState r) (currentUrlTree r)))
  | _ => (r, n)
  end.

(** The outcome of the stages [applyRedirects] .. [resolveData], which run
    asynchronously: a failure, or the applied url, the new router state
    and [shouldActivate]. *)
Inductive PipelineOutcome : Type :=
| PipelineFailed (e : Error)
| PipelineValue (appliedUrl : UrlTree) (state : TreeNode ActivatedRoute)
    (shouldActivate : bool).

(** The guard stages: [checkGuards()], then [resolveData()] only when it
    answered [true]. *)
Definition guardStage (guard : GuardCall -> GVal) (checks : list Check)
  (resolveData : result unit) (appliedUrl : UrlTree) (state : TreeNode ActivatedRoute)
  : PipelineOutcome :=
  match run guard (checkGuards checks) with
  | Err e => PipelineFailed e
  | Ok (v, _) =>
      if is_true v then
        match resolveData with
        | Ok _ => PipelineValue appliedUrl state true
        | Err e => PipelineFailed e
        end
      else PipelineValue appliedUrl state false
  end.

(** The [forEach] callback (the commit point), or the rejection of the
    chain when a stage failed. *)
Definition runNavigate_forEach (r : Router) (n : Nav) (out : PipelineOutcome)
  : Router * Nav :=
  match phase n with
  | Running ss su =>
      match out with
      | PipelineFailed e => (r, with_phase n (Settled ss su (SettledErr e)))
      | PipelineValue appliedUrl state shouldActivate =>
          if negb shouldActivate || negb (Nat.eqb (nav_id n) (navigationId r)) then
            (emit r (NavigationCancel (nav_id n) (serializeUrl (nav_url n))),
             with_phase n (Settled ss su (SettledOk false appliedUrl)))
          else
            let r1 := set_pair r appliedUrl state in
            match activate template state (Some ss) (ui r1) with
            | Threw e st => (set_ui r1 st, with_phase n (Settled ss su (SettledErr e)))
            | Done st =>
                let r2 := set_ui r1 st in
                let r3 :=
                  if preventPushState n then r2
                  else
                    let path := serializeUrl appliedUrl in
                    if isCurrentPathEqualTo r2 path then location_replaceState r2 path
                    else location_go r2 path in
                (r3, with_phase n (Settled ss su (SettledOk true appliedUrl)))
            end
      end
  | _ => (r, n)
  end.

(** The [.then(onFulfilled, onRejected)] handlers. *)
Definition runNavigate_then (r : Router) (n : Nav) : Router * Nav :=
  match phase n with
  | Settled ss su (SettledOk ok appliedUrl) =>
      (emit r (NavigationEnd (nav_id n) (serializeUrl (nav_url n)) (serializeUrl appliedUrl)),
       with_phase n (Resolved ok))
  | Settled ss su (SettledErr e) =>
      (emit (set_pair r su ss) (NavigationError (nav_id n) (serializeUrl (nav_url n)) e),
       with_phase n (Rejected e))
  | _ => (r, n)
  end.

End Nav.

Arguments navigationId {UrlTree}.
Arguments currentUrlTree {UrlTree}.
Arguments currentRouterState {UrlTree}.
Arguments ui {UrlTree}.
Arguments location_path {UrlTree}.
Arguments location_ops {UrlTree}.
Arguments events {UrlTree}.
Arguments nav_id {UrlTree}.
Arguments nav_url {UrlTree}.
Arguments preventPushState {UrlTree}.
Arguments phase {UrlTree}.
Arguments mkRouter {UrlTree}.
Arguments emit {UrlTree}.
Arguments set_pair {UrlTree}.
Arguments set_ui {UrlTree}.
Arguments location_go {UrlTree}.
Arguments location_replaceState {UrlTree}.
Arguments isCurrentPathEqualTo {UrlTree}.
Arguments SettledOk {UrlTree}.
Arguments SettledErr {UrlTree}.
Arguments Scheduled {UrlTree}.
Arguments Running {UrlTree}.
Arguments Settled {UrlTree}.
Arguments Resolved {UrlTree}.
Arguments Rejected {UrlTree}.
Arguments mkNav {UrlTree}.
Arguments with_phase {UrlTree}.
Arguments scheduleNavigation {UrlTree}.
Arguments runNavigate_entry {UrlTree}.
Arguments PipelineFailed {UrlTree}.
Arguments PipelineValue {UrlTree}.
Arguments guardStage {UrlTree}.
Arguments runNavigate_forEach {UrlTree}.
Arguments runNavigate_then {UrlTree}.

Section RouterAPI.
Variable UrlTree : Type.
Variable serializeUrl : UrlTree -> string.
(** [urlSerializer.parse] and [UrlTree.toString()]. *)
Variable parse : string -> UrlTree.
Variable toString : UrlTree -> string.

(** The argument of [navigateByUrl]: [string|UrlTree]. *)
Inductive UrlArg : Type :=
| UrlStr (s : string)
| UrlTreeArg (t : UrlTree).

(** [navigateByUrl(url)] *)
Definition navigateByUrl (r : Router UrlTree) (url : UrlArg) : Router UrlTree * Nav UrlTree :=
  match url with
  | UrlTreeArg t => scheduleNavigation serializeUrl r t false
  | UrlStr s => let urlTree := parse s in scheduleNavigation serializeUrl r urlTree false
  end.

(** [initialNavigation()]: [navigateByUrl(this.location.path(true))] (the
    listener it sets up is [onLocationChange]). *)
Definition initialNavigation (r : Router UrlTree) : Router UrlTree * Nav UrlTree :=
  navigateByUrl r (UrlStr (location_path r)).

(** The [location.subscribe] callback of [setUpLocationChangeListener]
    for a change [{url, pop}]: it schedules a navigation only when the url
    differs from the current one, and returns [null] otherwise. *)
Definition onLocationChange (r : Router UrlTree) (url : string) (pop : bool)
  : Router UrlTree * option (Nav UrlTree) :=
  let tree := parse url in
  if negb (String.eqb (toString (currentUrlTree r)) (toString tree)) then
    let '(r', n) := scheduleNavigation serializeUrl r tree pop in (r', Some n)
  else (r, None).
End RouterAPI.

Arguments UrlStr {UrlTree}.
Arguments UrlTreeArg {UrlTree}.
Arguments navigateByUrl {UrlTree}.
Arguments initialNavigation {UrlTree}.
Arguments onLocationChange {UrlTree}.

End Navigation.

(* ------------------------------------------------------------------ *)
(** ** Registry teardown order *)

Module Teardown.
Import PreActivation ActivateRoutes.

(** The activated outlets below a registry, each with its address (the
    path of its registry and its name), each listed after everything in
    its own nested registry. *)
Fixpoint post_outlet (p : list string) (n : string) (o : RouterOutlet) {struct o}
  : list (list string * string * RouterOutlet) :=
  match o with
  | Outlet (Some _) m => post_map (p ++ [n]) m ++ [(p, n, o)]
  | Outlet None _ => []
  end
with post_map (p : list string) (m : OutletMap)
  : list (list string * string * RouterOutlet) :=
  match m with
  | OMNil => []
  | OMCons n o rest => post_outlet p n o ++ post_map p rest
  end.

(** [reach p m q n o]: [o] is an activated outlet named [n] in the
    registry at [q], reached from the registry [m] at [p] through activated
    outlets only. *)
Inductive reach : list string -> OutletMap -> list string -> string -> RouterOutlet -> Prop :=
| reach_here p n o rest :
    isActivated o = true -> reach p (OMCons n o rest) p n o
| reach_later p n' o' rest q n o :
    reach p rest q n o -> reach p (OMCons n' o' rest) q n o
| reach_below p n' o' rest q n o :
    isActivated o' = true -> reach (p ++ [n']) (outlet_map_of o') q n o ->
    reach p (OMCons n' o' rest) q n o.

(** The deactivate-check the guard phase records for one outlet. *)
Definition to_checks (e : list string * string * RouterOutlet) : list Check :=
  match e with
  | (_, _, Outlet (Some (c, ar)) _) => [CanDeactivate (Some c) (RSnap (snapshot ar))]
  | _ => []
  end.

Definition to_unmount (e : list string * string * RouterOutlet) : Act :=
  let '(q, n, _) := e in Unmount q n.

End Teardown.

(* ------------------------------------------------------------------ *)
(** ** Concrete inputs *)

Module Fixtures.
Import PreActivation ActivateRoutes Navigation.
Local Open Scope string_scope.

Definition root_snap : Snap := mkSnap 0 "primary" [] None None.

(** A route [i] at the primary outlet, with component [i] and the single
    can-activate guard [i]. *)
Definition guarded_snap (i : nat) : Snap :=
  mkSnap i "primary" [] (Some i) (Some (mkRouteConfig i [i] [] [])).

(** Four activate-checks whose guards answer true, true, false, true. *)
Definition four_checks : list Check :=
  map (fun i => CanActivate [root_snap; guarded_snap i]) [1; 2; 3; 4].

Definition four_guard (g : GuardCall) : GVal :=
  match g with
  | CallCanActivate 3 _ => GBool false
  | _ => GBool true
  end.

(** The route [team/:id] (config 7, component 70) with [id] = [v]. *)
Definition team_cfg : RouteConfig := mkRouteConfig 7 [] [] [].
Definition team_snap (i : nat) (v : string) : Snap :=
  mkSnap i "primary" [("id", v)] (Some 70) (Some team_cfg).

(** Navigation fixtures: urls are their serialized paths, and mounted
    components declare no outlets of their own. *)
Definition ser (u : string) : string := u.
Definition no_outlets (c : nat) : OutletMap := OMNil.

Definition root_ar : ActivatedRoute := mkAR 0 root_snap.
Definition a_ar : ActivatedRoute :=
  mkAR 1 (mkSnap 1 "primary" [] (Some 1) (Some (mkRouteConfig 1 [] [] []))).
Definition aux_ar : ActivatedRoute :=
  mkAR 2 (mkSnap 2 "aux" [] (Some 2) (Some (mkRouteConfig 2 [] [] []))).
Definition state0 : TreeNode ActivatedRoute := TNode root_ar [].
Definition state_a : TreeNode ActivatedRoute := TNode root_ar [TNode a_ar []].
Definition state_a_aux : TreeNode ActivatedRoute :=
  TNode root_ar [TNode a_ar []; TNode aux_ar []].

(** The application at "/": the root component's registry has one
    primary outlet, nothing is mounted. *)
Definition router0 : Router string :=
  mkRouter 0 "/" state0 (OMCons "primary" (Outlet None OMNil) OMNil, []) "/" [] [].

(** Navigation 1 to "/a" enters its pipeline; navigation 2 to "/b" is
    scheduled, enters, commits [state_a] and resolves; then navigation 1's
    pipeline fails. Returns the router after navigation 2 settled, the
    final router and navigation 1. *)
Definition two_navs : Router string * Router string * Nav string :=
  let '(r1, n1) := scheduleNavigation ser router0 "/a" false in
  let '(r2, n1) := runNavigate_entry ser r1 n1 in
  let '(r3, n2) := scheduleNavigation ser r2 "/b" false in
  let '(r4, n2) := runNavigate_entry ser r3 n2 in
  let '(r5, n2) := runNavigate_forEach ser no_outlets r4 n2 (PipelineValue "/b" state_a true) in
  let '(r6, _) := runNavigate_then ser r5 n2 in
  let '(r7, n1) := runNavigate_forEach ser no_outlets r6 n1 (PipelineFailed (Thrown 5)) in
  let '(r8, n1) := runNavigate_then ser r7 n1 in
  (r6, r8, n1).

(** Navigation 1 is superseded before its [runNavigate] starts. *)
Definition superseded_at_entry : Router string * Nav string :=
  let '(r1, n1) := scheduleNavigation ser router0 "/a" false in
  let '(r2, _) := scheduleNavigation ser r1 "/b" false in
  runNavigate_entry ser r2 n1.

(** A navigation whose new state has a primary and an aux child while the
    root registry has no aux outlet: activation mounts the primary child,
    then [getOutlet] throws for the aux one. *)
Definition failed_activation : Router string * Nav string :=
  let '(r1, n) := scheduleNavigation ser router0 "/a(aux:b)" false in
  let '(r2, n) := runNavigate_entry ser r1 n in
  let '(r3, n) := runNavigate_forEach ser no_outlets r2 n
                    (PipelineValue "/a(aux:b)" state_a_aux true) in
  runNavigate_then ser r3 n.

(** A navigation to "/g" whose activate-checks are [four_checks],
    answered by [four_guard], from the pipeline's [Running] phase. *)
Definition guarded_nav : Nav string := mkNav 1 "/g" false (Running state0 "/").
Definition router_at_1 : Router string :=
  mkRouter 1 "/" state0 (OMCons "primary" (Outlet None OMNil) OMNil, []) "/" []
    [NavigationStart 1 "/g"].

(** The UI after [state_a] is activated over [state0] in [router0]: the
    component of [a_ar] is mounted in the primary outlet. *)
Definition ui_a : St :=
  (OMCons "primary" (Outlet (Some (1, a_ar)) OMNil) OMNil,
   [Advance root_ar; Advance a_ar; Mount [] "primary" a_ar]).

(** A route with the can-deactivate guard 9, mounted (component 5) in the
    primary outlet of [leaving_map]. *)
Definition leaving_snap : Snap :=
  mkSnap 5 "primary" [] (Some 5) (Some (mkRouteConfig 5 [] [] [9])).
Definition leaving_map : OutletMap :=
  OMCons "primary" (Outlet (Some (5, mkAR 5 leaving_snap)) OMNil) OMNil.

(** A componentless route whose config (8) has loaded a child
    configuration (80). *)
Definition lazy_snap : Snap := mkSnap 8 "primary" [] None (Some (mkRouteConfig 8 [] [] [])).
(** A componentless route at the aux outlet. *)
Definition aux_snap : Snap := mkSnap 6 "aux" [] None None.

Definition loaded (c : RouteConfig) : option nat :=
  if Nat.eqb (cfg_id c) 8 then Some 80 else None.

End Fixtures.

(* ------------------------------------------------------------------ *)
(** ** Shapes used to state properties of the embedding *)

Module Shapes.
Import PreActivation ActivateRoutes Navigation.

(** The activate-checks of a subtree in pre-order, each with its path
    from the root ([path] ends at the subtree's own snapshot). *)
Fixpoint activations (path : list Snap) (t : TreeNode Snap) {struct t} : list Check :=
  let 'TNode _ cs := t in
  CanActivate path :: flat_map (fun c => activations (path ++ [value c]) c) cs.

(** No repeated string. *)
Fixpoint distinct (l : list string) : bool :=
  match l with
  | [] => true
  | k :: l' => negb (existsb (String.eqb k) l') && distinct l'
  end.

(** A tree whose siblings are routed to distinct outlets and whose nodes
    satisfy [ok]. *)
Fixpoint keyed_tree {A} (outletOf : A -> string) (ok : A -> bool) (t : TreeNode A) : bool :=
  let 'TNode v cs := t in
  ok v && distinct (map (fun c => outletOf (value c)) cs) && forallb (keyed_tree outletOf ok) cs.

(** A snapshot tree as the recognizer builds it: parameters are a JS
    object (distinct keys) and siblings use distinct outlets. *)
Definition snap_tree (t : TreeNode Snap) : bool :=
  keyed_tree outlet (fun s => distinct (map fst (params s))) t.

Definition route_tree (t : TreeNode ActivatedRoute) : bool :=
  keyed_tree (fun r => outlet (snapshot r)) (fun _ => true) t.

(** The UI state a commit computation ends in, thrown or not. *)
Definition cres_st (c : cresult) : St := match c with Done s => s | Threw _ s => s end.

(** [st'] differs from [st] only by route advancements appended to the
    log: the registries are untouched. *)
Definition only_advances (st st' : St) : Prop :=
  fst st' = fst st /\
  exists l, snd st' = snd st ++ l /\ Forall (fun a => exists r, a = Advance r) l.

(** One step of the router taken by the event loop: scheduling a
    navigation, or one of the three continuations of a navigation. *)
Inductive Op (UrlTree : Type) : Type :=
| OpSchedule (url : UrlTree) (prevent : bool)
| OpEntry (n : Nav UrlTree)
| OpForEach (n : Nav UrlTree) (out : PipelineOutcome UrlTree)
| OpThen (n : Nav UrlTree).
Arguments OpSchedule {UrlTree}.
Arguments OpEntry {UrlTree}.
Arguments OpForEach {UrlTree}.
Arguments OpThen {UrlTree}.

Definition apply_op {UrlTree} (serializeUrl : UrlTree -> string) (template : nat -> OutletMap)
  (r : Router UrlTree) (op : Op UrlTree) : Router UrlTree :=
  match op with
  | OpSchedule url prevent => fst (scheduleNavigation serializeUrl r url prevent)
  | OpEntry n => fst (runNavigate_entry serializeUrl r n)
  | OpForEach n out => fst (runNavigate_forEach serializeUrl template r n out)
  | OpThen n => fst (runNavigate_then serializeUrl r n)
  end.

Definition run_ops {UrlTree} (serializeUrl : UrlTree -> string) (template : nat -> OutletMap)
  (r : Router UrlTree) (ops : list (Op UrlTree)) : Router UrlTree :=
  fold_left (apply_op serializeUrl template) ops r.

Definition schedules {UrlTree} (ops : list (Op UrlTree)) : nat :=
  List.length (filter (fun op => match op with OpSchedule _ _ => true | _ => false end) ops).

End Shapes.

(* ================================================================== *)
(** * Properties *)

Module GuardProofs.
Import PreActivation.

(** Induction over observables, with a hypothesis per element of [OAnd]. *)
Section ObsInd.
Variable P : Obs -> Prop.
Hypothesis HOf : forall v, P (OOf v).
Hypothesis HGuard : forall g, P (OGuard g).
Hypothesis HAnd : forall xs, Forall P xs -> P (OAnd xs).
Hypothesis HThrow : forall e, P (OThrow e).

Fixpoint Obs_ind' (o : Obs) : P o :=
  match o with
  | OOf v => HOf v
  | OGuard g => HGuard g
  | OThrow e => HThrow e
  | OAnd xs =>
      HAnd xs ((fix all (xs : list Obs) : Forall P xs :=
                  match xs with
                  | [] => Forall_nil P
                  | x :: xs' => Forall_cons x (Obs_ind' x) (all xs')
                  end) xs)
  end.
End ObsInd.

(** Observables that throw nowhere and whose constants are [true]: what
    [checkGuards] builds when every activate-check has a path. *)
Fixpoint wf_obs (o : Obs) : bool :=
  match o with
  | OOf v => is_true v
  | OGuard _ => true
  | OThrow _ => false
  | OAnd xs => forallb wf_obs xs
  end.

Definition path_nonempty (c : Check) : bool :=
  match c with CanActivate [] => false | _ => true end.

Section WithGuard.
Variable guard : GuardCall -> GVal.
Let ok (g : GuardCall) : bool := is_true (guard g).

Lemma run_OAnd_nil : run guard (OAnd []) = Ok (GBool true, []).
Proof. reflexivity. Qed.

Lemma run_OAnd_cons x xs :
  run guard (OAnd (x :: xs)) =
  (r <- run guard x ;;
   if is_true (fst r) then (r' <- run guard (OAnd xs) ;; Ok (fst r', snd r ++ snd r'))
   else Ok (GBool false, snd r)).
Proof. reflexivity. Qed.

Lemma calls_OAnd_cons x xs : calls (OAnd (x :: xs)) = calls x ++ calls (OAnd xs).
Proof. reflexivity. Qed.

Lemma is_true_eq v : is_true v = true -> v = GBool true.
Proof. destruct v as [[|]|]; simpl; congruence. Qed.

Lemma run_OAnd_bool xs v t : run guard (OAnd xs) = Ok (v, t) -> exists b, v = GBool b.
Proof.
  induction xs as [|x xs IH] in v, t |- *.
  - rewrite run_OAnd_nil. intros H; inversion H; eauto.
  - rewrite run_OAnd_cons. destruct (run guard x) as [[v1 t1]|e]; cbn [bind fst snd]; [|congruence].
    destruct (is_true v1).
    + destruct (run guard (OAnd xs)) as [[v2 t2]|e] eqn:E; cbn [bind fst snd]; [|congruence].
      intros H; inversion H; subst. eapply IH; eauto.
    + intros H; inversion H; eauto.
Qed.

(** Every guard answers [true]: all are invoked, in order, and the
    observable emits [true]. *)
Lemma run_all_true o :
  wf_obs o = true -> forallb ok (calls o) = true ->
  run guard o = Ok (GBool true, calls o).
Proof.
  induction o as [v|g|xs IH|e] using Obs_ind'; intros Hwf Hall.
  - simpl in *. apply is_true_eq in Hwf; subst; reflexivity.
  - simpl in *. unfold ok in Hall. rewrite andb_true_r in Hall. apply is_true_eq in Hall.
    rewrite Hall; reflexivity.
  - induction xs as [|x xs IHxs]; [reflexivity|].
    inversion IH as [|? ? IHx IHr]; subst.
    simpl in Hwf. apply andb_prop in Hwf as [Hx Hr].
    rewrite calls_OAnd_cons in Hall |- *.
    rewrite forallb_app in Hall. apply andb_prop in Hall as [Hax Har].
    rewrite run_OAnd_cons, (IHx Hx Hax). cbn [bind fst snd is_true].
    rewrite (IHxs IHr Hr Har). reflexivity.
  - discriminate.
Qed.

(** The first guard answering anything but [true] ends the evaluation:
    the guards invoked are exactly those up to it. *)
Lemma run_first_false o pre g post :
  wf_obs o = true -> calls o = pre ++ g :: post ->
  forallb ok pre = true -> ok g = false ->
  exists v, run guard o = Ok (v, pre ++ [g]) /\ is_true v = false.
Proof.
  induction o as [v|g'|xs IH|e] using Obs_ind' in pre, g, post |- *;
    intros Hwf Hc Hpre Hg.
  - destruct pre; discriminate.
  - simpl in Hc. destruct pre as [|? [|]]; inversion Hc; subst.
    exists (guard g); split; [reflexivity|exact Hg].
  - induction xs as [|x xs IHxs] in pre, post, Hc, Hpre, IH, Hwf |- *.
    + destruct pre; discriminate.
    + inversion IH as [|? ? IHx IHr]; subst.
      simpl in Hwf. apply andb_prop in Hwf as [Hx Hr].
      rewrite calls_OAnd_cons in Hc.
      apply app_eq_app in Hc as [l [[H1 H2]|[H1 H2]]].
      * (* the failing guard lies in [x] or starts [xs] *)
        destruct l as [|g0 l].
        -- rewrite app_nil_r in H1. simpl in H2. subst pre.
           rewrite run_OAnd_cons, (run_all_true x Hx Hpre). cbn [bind fst snd is_true].
           destruct (IHxs IHr [] post Hr (eq_sym H2) eq_refl) as [v [Hv Hf]].
           rewrite Hv. cbn [bind fst snd]. eexists; split; [reflexivity|exact Hf].
        -- simpl in H2. inversion H2; subst g0.
           destruct (IHx pre g l Hx H1 Hpre Hg) as [v [Hv Hf]].
           rewrite run_OAnd_cons, Hv. cbn [bind fst snd]. rewrite Hf.
           eexists; split; reflexivity.
      * (* all of [x] answers [true] *)
        subst pre. rewrite forallb_app in Hpre. apply andb_prop in Hpre as [Hp1 Hp2].
        rewrite run_OAnd_cons, (run_all_true x Hx Hp1). cbn [bind fst snd is_true].
        destruct (IHxs IHr l post Hr H2 Hp2) as [v [Hv Hf]].
        rewrite Hv. cbn [bind fst snd]. rewrite <- app_assoc.
        eexists; split; [reflexivity|exact Hf].
  - discriminate.
Qed.

End WithGuard.

Lemma first_false_split {A} (f : A -> bool) (l : list A) :
  forallb f l = false ->
  exists pre x post, l = pre ++ x :: post /\ forallb f pre = true /\ f x = false.
Proof.
  induction l as [|a l IH]; simpl; [discriminate|].
  destruct (f a) eqn:Ha; simpl.
  - intros H. destruct (IH H) as (pre & x & post & -> & Hp & Hx).
    exists (a :: pre), x, post. simpl. rewrite Ha. auto.
  - intros _. exists [], a, l. auto.
Qed.

Lemma forallb_map_guard (ts : list Token) (mk : Token -> GuardCall) :
  forallb wf_obs (map (fun t => OGuard (mk t)) ts) = true.
Proof. induction ts; simpl; auto. Qed.

Lemma calls_map_guard (ts : list Token) (mk : Token -> GuardCall) :
  flat_map calls (map (fun t => OGuard (mk t)) ts) = map mk ts.
Proof. induction ts; simpl; congruence. Qed.

Lemma wf_runCanActivate s : wf_obs (runCanActivate s) = true.
Proof.
  unfold runCanActivate. destruct (ca_tokens s) eqn:E; [reflexivity|].
  simpl. apply (forallb_map_guard (t :: l)).
Qed.

Lemma wf_runCanActivateChild path f : wf_obs (runCanActivateChild path f) = true.
Proof.
  unfold runCanActivateChild. simpl.
  induction (filter_some (map extractCanActivateChild (rev (removelast path)))); simpl; auto.
  rewrite forallb_map_guard. auto.
Qed.

Lemma wf_runCanDeactivate c r : wf_obs (runCanDeactivate c r) = true.
Proof.
  unfold runCanDeactivate. destruct r as [s|]; [|reflexivity].
  destruct (routeConfig s); [|reflexivity].
  destruct (canDeactivate r); [reflexivity|]. simpl. apply (forallb_map_guard (t :: l)).
Qed.

Lemma wf_check_obs c : path_nonempty c = true -> wf_obs (check_obs c) = true.
Proof.
  destruct c as [path|c0 r]; unfold check_obs; intros H.
  - destruct path as [|p ps]; [discriminate|].
    destruct (rev (p :: ps)) eqn:E.
    + apply (f_equal (@List.length _)) in E. rewrite length_rev in E. discriminate.
    + cbn [wf_obs forallb]. rewrite wf_runCanActivate, wf_runCanActivateChild. reflexivity.
  - apply wf_runCanDeactivate.
Qed.

Lemma wf_checkGuards checks :
  forallb path_nonempty checks = true -> wf_obs (checkGuards checks) = true.
Proof.
  intros H. destruct checks as [|c cs]; [reflexivity|].
  change (forallb wf_obs (map check_obs (c :: cs)) = true).
  induction (c :: cs) as [|c' l IH]; simpl in *; auto.
  apply andb_prop in H as [H1 H2]. rewrite (wf_check_obs c' H1). simpl. auto.
Qed.

Lemma calls_runCanActivate (future : Snap) :
  calls (runCanActivate future) = map (fun t => CallCanActivate t future) (ca_tokens future).
Proof.
  unfold runCanActivate. destruct (ca_tokens future) as [|t l]; [reflexivity|].
  apply (calls_map_guard (t :: l)).
Qed.

Lemma calls_canActivateChild_groups (l : list Snap) (future : Snap) :
  flat_map calls
    (map (fun d => OAnd (map (fun t => OGuard (CallCanActivateChild t future)) (snd d)))
       (filter_some (map extractCanActivateChild l))) =
  flat_map (fun p => map (fun t => CallCanActivateChild t future) (cac_tokens p)) l.
Proof.
  induction l as [|p l IH]; [reflexivity|]. simpl.
  unfold extractCanActivateChild at 1. destruct (cac_tokens p) as [|t ts] eqn:E.
  - cbn [map app]. exact IH.
  - cbn [map flat_map snd]. rewrite IH. f_equal.
    cbn [calls]. exact (calls_map_guard (t :: ts) (fun t => CallCanActivateChild t future)).
Qed.

(** C4: [checkGuards] is the conjunction of every guard of every recorded
    check, evaluated in check order and short-circuiting: with no check it
    answers [true] and runs nothing; it answers [true] exactly when every
    guard answers [true] (all of them run); otherwise it answers [false],
    and the guards run are exactly those up to the first guard that did
    not answer [true]. *)
Theorem checkGuards_and_short_circuit (guard : GuardCall -> GVal) (checks : list Check)
  (Hpaths : forallb path_nonempty checks = true) :
  (checks = [] -> run guard (checkGuards checks) = Ok (GBool true, [])) /\
  (exists t, run guard (checkGuards checks) =
     Ok (GBool (forallb (fun g => is_true (guard g)) (calls (checkGuards checks))), t)) /\
  (forallb (fun g => is_true (guard g)) (calls (checkGuards checks)) = true ->
     run guard (checkGuards checks) = Ok (GBool true, calls (checkGuards checks))) /\
  (forall pre g post, calls (checkGuards checks) = pre ++ g :: post ->
     forallb (fun g => is_true (guard g)) pre = true -> is_true (guard g) = false ->
     run guard (checkGuards checks) = Ok (GBool false, pre ++ [g])).
Proof.
  pose proof (wf_checkGuards checks Hpaths) as Hwf.
  assert (Hfalse : forall pre g post, calls (checkGuards checks) = pre ++ g :: post ->
     forallb (fun g => is_true (guard g)) pre = true -> is_true (guard g) = false ->
     run guard (checkGuards checks) = Ok (GBool false, pre ++ [g])).
  { intros pre g post Hc Hp Hg.
    destruct (run_first_false guard _ pre g post Hwf Hc Hp Hg) as [v [Hv Hf]].
    rewrite Hv. destruct checks as [|c cs]; [destruct pre; discriminate|].
    destruct (run_OAnd_bool guard _ _ _ Hv) as [b ->]. destruct b; [discriminate|reflexivity]. }
  assert (Htrue : forallb (fun g => is_true (guard g)) (calls (checkGuards checks)) = true ->
     run guard (checkGuards checks) = Ok (GBool true, calls (checkGuards checks))).
  { intros H. apply (run_all_true guard _ Hwf H). }
  split; [intros ->; reflexivity|].
  split; [|split; assumption].
  destruct (forallb (fun g => is_true (guard g)) (calls (checkGuards checks))) eqn:E.
  - eexists. apply Htrue. reflexivity.
  - destruct (first_false_split _ _ E) as (pre & g & post & Hc & Hp & Hg).
    eexists. apply (Hfalse pre g post Hc Hp Hg).
Qed.

(** C8: an activate-check for the path [ancestors ++ [future]] runs the
    node's own can-activate guards, then the can-activate-child guards of
    its strict ancestors taken nearest first (the root-to-node path without
    the node, reversed), each ancestor contributing its own list, every
    guard being called on the node itself; when all answer [true] they run
    in exactly this order. *)
Theorem activate_check_guard_order (ancestors : list Snap) (future : Snap) :
  let expected :=
    map (fun t => CallCanActivate t future) (ca_tokens future) ++
    flat_map (fun p => map (fun t => CallCanActivateChild t future) (cac_tokens p))
      (rev ancestors) in
  calls (check_obs (CanActivate (ancestors ++ [future]))) = expected /\
  (forall guard : GuardCall -> GVal,
     forallb (fun g => is_true (guard g)) expected = true ->
     run guard (check_obs (CanActivate (ancestors ++ [future]))) = Ok (GBool true, expected)).
Proof.
  intros expected.
  assert (Hcalls : calls (check_obs (CanActivate (ancestors ++ [future]))) = expected).
  { unfold check_obs. rewrite rev_unit. cbn [calls flat_map].
    rewrite calls_runCanActivate. unfold runCanActivateChild. rewrite removelast_last.
    cbn [calls]. rewrite calls_canActivateChild_groups, app_nil_r. reflexivity. }
  split; [exact Hcalls|].
  intros guard Hall. rewrite <- Hcalls.
  apply run_all_true.
  - apply (wf_check_obs (CanActivate (ancestors ++ [future]))).
    destruct ancestors; reflexivity.
  - rewrite Hcalls. exact Hall.
Qed.

(** The scenario [true, true, false, true]: the answer is [false] and the
    fourth guard never runs. *)
Lemma checkGuards_and_short_circuit_witness :
  forallb path_nonempty Fixtures.four_checks = true /\
  run Fixtures.four_guard (checkGuards Fixtures.four_checks) =
    Ok (GBool false, [CallCanActivate 1 (Fixtures.guarded_snap 1);
                      CallCanActivate 2 (Fixtures.guarded_snap 2);
                      CallCanActivate 3 (Fixtures.guarded_snap 3)]).
Proof.
  split; [reflexivity|].
  exact (proj2 (proj2 (proj2
           (checkGuards_and_short_circuit Fixtures.four_guard Fixtures.four_checks eq_refl)))
           [CallCanActivate 1 (Fixtures.guarded_snap 1); CallCanActivate 2 (Fixtures.guarded_snap 2)]
           (CallCanActivate 3 (Fixtures.guarded_snap 3))
           [CallCanActivate 4 (Fixtures.guarded_snap 4)] eq_refl eq_refl eq_refl).
Defined.

End GuardProofs.

Module DiffProofs.
Import PreActivation ActivateRoutes Teardown.

Scheme RouterOutlet_mut := Induction for RouterOutlet Sort Prop
  with OutletMap_mut := Induction for OutletMap Sort Prop.

Lemma post_outlet_active p n o :
  isActivated o = true -> post_outlet p n o = post_map (p ++ [n]) (outlet_map_of o) ++ [(p, n, o)].
Proof. destruct o as [[[c ar]|] m]; simpl; congruence. Qed.

Lemma reach_active p m q n o : reach p m q n o -> isActivated o = true.
Proof. induction 1; auto. Qed.

(** The entries of an outlet's subtree form one contiguous segment. *)
Lemma reach_segment p m q n o :
  reach p m q n o -> exists L1 L2, post_map p m = L1 ++ post_outlet q n o ++ L2.
Proof.
  induction 1 as [p n o rest Ha|p n' o' rest q n o _ [L1 [L2 IH]]|p n' o' rest q n o Ha _ [L1 [L2 IH]]].
  - exists [], (post_map p rest). reflexivity.
  - exists (post_outlet p n' o' ++ L1), L2. simpl. rewrite IH. now rewrite !app_assoc.
  - exists L1, (L2 ++ [(p, n', o')] ++ post_map p rest). simpl.
    rewrite (post_outlet_active _ _ _ Ha), IH. rewrite <- !app_assoc. reflexivity.
Qed.

Lemma post_map_in p m q n o : In (q, n, o) (post_map p m) -> reach p m q n o.
Proof.
  revert p q n o.
  induction m as [a m IHm| |n0 o0 IHo rest IHrest] using OutletMap_mut with
    (P := fun o0 => forall p n0 q n o, In (q, n, o) (post_outlet p n0 o0) ->
            (o = o0 /\ q = p /\ n = n0 /\ isActivated o0 = true) \/
            (isActivated o0 = true /\ reach (p ++ [n0]) (outlet_map_of o0) q n o)).
  - intros p n0 q n o Hin. destruct a as [[c ar]|]; [|destruct Hin].
    simpl in Hin. apply in_app_or in Hin as [Hin|[Heq|[]]].
    + right. split; [reflexivity|]. apply IHm, Hin.
    + inversion Heq; subst. left. auto.
  - intros p q n o [].
  - intros p q n o Hin. simpl in Hin. apply in_app_or in Hin as [Hin|Hin].
    + destruct (IHo p n0 q n o Hin) as [(-> & -> & -> & Ha)|[Ha Hr]].
      * apply reach_here, Ha.
      * apply reach_below; assumption.
    + apply reach_later, IHrest, Hin.
Qed.

Lemma reach_post_in p m q n o : reach p m q n o -> In (q, n, o) (post_map p m).
Proof.
  induction 1 as [p n o rest Ha|p n' o' rest q n o _ IH|p n' o' rest q n o Ha _ IH]; simpl.
  - rewrite (post_outlet_active _ _ _ Ha). apply in_or_app. left. apply in_or_app. right. left. reflexivity.
  - apply in_or_app. right. exact IH.
  - rewrite (post_outlet_active _ _ _ Ha). apply in_or_app. left. apply in_or_app. left. exact IH.
Qed.

(** The guard-phase teardown records the checks of [post_map], in order. *)
Lemma deactivate_map_post m p : deactivate_map m = flat_map to_checks (post_map p m).
Proof.
  revert p.
  induction m as [a m IHm| |n0 o0 IHo rest IHrest] using OutletMap_mut with
    (P := fun o0 => forall p n0,
            match o0 with
            | Outlet (Some (_, ar)) _ => deactivate_outlet (RSnap (snapshot ar)) o0
            | Outlet None _ => []
            end = flat_map to_checks (post_outlet p n0 o0)).
  - intros p n0. destruct a as [[c ar]|]; [|reflexivity]. simpl.
    rewrite flat_map_app, (IHm (p ++ [n0])). reflexivity.
  - reflexivity.
  - intros p. simpl. rewrite flat_map_app, <- (IHo p n0), <- (IHrest p). reflexivity.
Qed.

(** The commit-phase teardown unmounts in the order of [post_map]. *)
Lemma deact_map_post m p : snd (deact_map p m) = map to_unmount (post_map p m).
Proof.
  revert p.
  induction m as [a m IHm| |n0 o0 IHo rest IHrest] using OutletMap_mut with
    (P := fun o0 => forall p n0, snd (deact_outlet p n0 o0) = map to_unmount (post_outlet p n0 o0)).
  - intros p n0. destruct a as [[c ar]|]; [|reflexivity]. simpl.
    rewrite map_app, (IHm (p ++ [n0])). reflexivity.
  - reflexivity.
  - intros p. simpl. specialize (IHo p n0). specialize (IHrest p).
    destruct (deact_outlet p n0 o0) as [o' a1]. destruct (deact_map p rest) as [rest' a2].
    simpl in *. rewrite map_app, IHo, IHrest. reflexivity.
Qed.

Lemma deactivateOutletMap_log pm st :
  snd (deactivateOutletMap pm st) = snd st ++ map to_unmount (post_map pm (map_at (fst st) pm)).
Proof.
  destruct st as [root log]. unfold deactivateOutletMap. simpl.
  pose proof (deact_map_post (map_at root pm) pm) as H.
  destruct (deact_map pm (map_at root pm)) as [m' acts]. simpl in *. rewrite H. reflexivity.
Qed.

(** A reused node whose parameters changed, with the outlet found. *)
Lemma reused_changed_params_records_pair future curr fcs ccs m o futurePath checks :
  same_config (routeConfig future) (routeConfig curr) = true ->
  shallowEqual (params future) (params curr) = false ->
  outlets_get m (outlet future) = Some o ->
  traverseRoutes (TNode future fcs) (Some (TNode curr ccs)) (Some m) futurePath checks =
  traverseChildRoutes (TNode future fcs) (Some (TNode curr ccs))
    (match component future with Some _ => Some (outlet_map_of o) | None => Some m end)
    futurePath
    (checks ++ [CanDeactivate (outlet_component o) (RSnap curr); CanActivate futurePath]).
Proof.
  intros Hc Hp Ho. simpl. rewrite Hc, Hp, Ho. simpl.
  destruct (component future); reflexivity.
Qed.

End DiffProofs.

Module DiffClaims.
Import PreActivation ActivateRoutes Teardown Fixtures DiffProofs.

(** C5: a node whose previous counterpart has the same route config and
    shallow-equal parameters records no check of its own in the guard phase
    (the check list reaches its children unchanged, with the outlet map the
    source would pass); [createRouterState] keeps the previous live route
    for it, and the commit phase then only advances that route before
    descending (no unmount, no mount at this node). *)
Theorem reused_same_params_no_checks_no_remount :
  (forall future curr fcs ccs pom futurePath checks,
     same_config (routeConfig future) (routeConfig curr) = true ->
     shallowEqual (params future) (params curr) = true ->
     traverseRoutes (TNode future fcs) (Some (TNode curr ccs)) pom futurePath checks =
     traverseChildRoutes (TNode future fcs) (Some (TNode curr ccs))
       (match component future with
        | Some _ =>
            match pom with
            | Some m => option_map outlet_map_of (outlets_get m (outlet future))
            | None => None
            end
        | None => pom
        end)
       futurePath checks) /\
  (forall s cs p pcs fresh,
     same_config (routeConfig s) (routeConfig (snapshot p)) = true ->
     ar_id (value (fst (create_node (TNode s cs) (Some (TNode p pcs)) fresh))) = ar_id p) /\
  (forall template future curr fcs ccs pm st,
     ar_id future = ar_id curr ->
     activateRoutes template (TNode future fcs) (Some (TNode curr ccs)) pm st =
     match component (snapshot future) with
     | Some _ =>
         with_outlet pm future (advanceActivatedRoute future st) (fun o =>
           activateChildRoutes template (TNode future fcs) (Some (TNode curr ccs))
             (fst o ++ [snd o]) (advanceActivatedRoute future st))
     | None =>
         activateChildRoutes template (TNode future fcs) (Some (TNode curr ccs)) pm
           (advanceActivatedRoute future st)
     end).
Proof.
  split; [|split].
  - intros future curr fcs ccs pom futurePath checks Hc Hp.
    simpl. rewrite Hc, Hp. simpl.
    destruct (component future); destruct pom; reflexivity.
  - intros s cs p pcs fresh Hc. simpl. rewrite Hc.
    destruct (fold_left _ cs _). reflexivity.
  - intros template future curr fcs ccs pm st Hid. simpl.
    rewrite (proj2 (Nat.eqb_eq _ _) Hid). reflexivity.
Qed.

(** C6: a reused node (same route config) with changed parameters records
    the deactivate-check for the old snapshot immediately followed by the
    activate-check for the new path, when the parent registry has an outlet
    for its slot; with no outlet registered for the slot (here: an empty
    registry) the same step throws a TypeError and records nothing. *)
Theorem reused_changed_params_check_pair :
  (forall future curr fcs ccs m o futurePath checks,
     same_config (routeConfig future) (routeConfig curr) = true ->
     shallowEqual (params future) (params curr) = false ->
     outlets_get m (outlet future) = Some o ->
     traverseRoutes (TNode future fcs) (Some (TNode curr ccs)) (Some m) futurePath checks =
     traverseChildRoutes (TNode future fcs) (Some (TNode curr ccs))
       (match component future with Some _ => Some (outlet_map_of o) | None => Some m end)
       futurePath
       (checks ++ [CanDeactivate (outlet_component o) (RSnap curr); CanActivate futurePath])) /\
  traverseRoutes (TNode (team_snap 2 "44"%string) []) (Some (TNode (team_snap 1 "33"%string) []))
    (Some OMNil) [root_snap; team_snap 2 "44"%string] [] = Err TypeError.
Proof.
  split.
  - exact reused_changed_params_records_pair.
  - reflexivity.
Qed.

(** C7: when the previous node is not reused and was componentless, the
    guard phase records the deactivate-checks of every activated outlet of
    the whole parent registry, and the commit phase unmounts the whole
    registry at that address; both follow [post_map], whose entries are
    exactly the activated outlets reachable through activated outlets
    ([reach]), each after every outlet nested below it. *)
Theorem componentless_replaced_deactivates_whole_registry :
  (forall future curr fcs ccs m futurePath checks,
     same_config (routeConfig future) (routeConfig curr) = false ->
     component curr = None ->
     traverseRoutes (TNode future fcs) (Some (TNode curr ccs)) (Some m) futurePath checks =
     traverseRoutes (TNode future fcs) None (Some m) futurePath
       (checks ++ flat_map to_checks (post_map [] m))) /\
  (forall template future curr fcs ccs pm st,
     ar_id future <> ar_id curr ->
     component (snapshot curr) = None ->
     activateRoutes template (TNode future fcs) (Some (TNode curr ccs)) pm st =
     activateRoutes template (TNode future fcs) None pm (deactivateOutletMap pm st) /\
     snd (deactivateOutletMap pm st) =
     snd st ++ map to_unmount (post_map pm (map_at (fst st) pm))) /\
  (forall p m q n o, In (q, n, o) (post_map p m) <-> reach p m q n o) /\
  (forall p m q n o q' n' o',
     reach p m q n o -> reach (q ++ [n]) (outlet_map_of o) q' n' o' ->
     exists l1 l2 l3, post_map p m = l1 ++ (q', n', o') :: l2 ++ (q, n, o) :: l3).
Proof.
  split; [|split; [|split]].
  - intros future curr fcs ccs m futurePath checks Hc Hcomp.
    simpl. rewrite Hc, Hcomp. simpl. rewrite (deactivate_map_post m []). reflexivity.
  - intros template future curr fcs ccs pm st Hid Hcomp. split.
    + simpl. rewrite (proj2 (Nat.eqb_neq _ _) Hid), Hcomp. reflexivity.
    + apply deactivateOutletMap_log.
  - intros p m q n o. split; [apply post_map_in|apply reach_post_in].
  - intros p m q n o q' n' o' H1 H2.
    destruct (reach_segment _ _ _ _ _ H1) as [L1 [L2 E1]].
    destruct (reach_segment _ _ _ _ _ H2) as [M1 [M2 E2]].
    rewrite (post_outlet_active _ _ _ (reach_active _ _ _ _ _ H1)), E2 in E1.
    rewrite (post_outlet_active _ _ _ (reach_active _ _ _ _ _ H2)) in E1.
    exists (L1 ++ M1 ++ post_map (q' ++ [n']) (outlet_map_of o')), M2, L2.
    rewrite E1. rewrite <- !app_assoc. reflexivity.
Qed.

(** C10: on the reuse branch with changed parameters, the outlet looked up
    for the slot is dereferenced unguarded: with no entry for the slot in
    the parent registry, or no parent registry at all, [traverseRoutes]
    throws a TypeError instead of recording a check. *)
Theorem reused_changed_params_missing_outlet_throws
  (future curr : Snap) (fcs ccs : list (TreeNode Snap)) (pom : option OutletMap)
  (futurePath : list Snap) (checks : list Check)
  (Hc : same_config (routeConfig future) (routeConfig curr) = true)
  (Hp : shallowEqual (params future) (params curr) = false)
  (Hmissing : match pom with Some m => outlets_get m (outlet future) = None | None => True end) :
  traverseRoutes (TNode future fcs) (Some (TNode curr ccs)) pom futurePath checks = Err TypeError.
Proof.
  simpl. rewrite Hc, Hp. simpl.
  destruct pom as [m|]; [rewrite Hmissing|]; reflexivity.
Qed.

Lemma reused_changed_params_missing_outlet_throws_witness :
  same_config (routeConfig (team_snap 2 "44"%string)) (routeConfig (team_snap 1 "33"%string)) = true /\
  shallowEqual (params (team_snap 2 "44"%string)) (params (team_snap 1 "33"%string)) = false /\
  traverseRoutes (TNode (team_snap 2 "44"%string) []) (Some (TNode (team_snap 1 "33"%string) [])) None
    [root_snap; team_snap 2 "44"%string] [] = Err TypeError.
Proof.
  split; [reflexivity|split; [reflexivity|]].
  apply reused_changed_params_missing_outlet_throws; [reflexivity|reflexivity|exact I].
Defined.

End DiffClaims.

Module NavClaims.
Import PreActivation ActivateRoutes Navigation Fixtures.

(** C1: when the guard stage answers a non-true value, the [forEach]
    callback emits [NavigationCancel] with the attempted url and leaves the
    authoritative pair, the UI and the location alone, and the promise
    resolves to [false]; but the fulfilment handler of [.then] runs as well
    and emits [NavigationEnd] right after the cancel event. *)
Theorem guard_reject_cancels_then_ends {UrlTree : Type}
  (serializeUrl : UrlTree -> string) (template : nat -> OutletMap)
  (guard : GuardCall -> GVal) (checks : list Check) (resolveData : result unit)
  (appliedUrl : UrlTree) (state : TreeNode ActivatedRoute)
  (r : Router UrlTree) (n : Nav UrlTree) (ss : TreeNode ActivatedRoute) (su : UrlTree)
  (v : GVal) (t : list GuardCall)
  (Hphase : phase n = Running ss su)
  (Hrun : run guard (checkGuards checks) = Ok (v, t))
  (Hfalse : is_true v = false) :
  let '(r1, n1) := runNavigate_forEach serializeUrl template r n
                     (guardStage guard checks resolveData appliedUrl state) in
  let '(r2, n2) := runNavigate_then serializeUrl r1 n1 in
  phase n2 = Resolved false /\
  currentRouterState r2 = currentRouterState r /\ currentUrlTree r2 = currentUrlTree r /\
  ui r2 = ui r /\ location_ops r2 = location_ops r /\
  events r2 = events r ++
    [NavigationCancel (nav_id n) (serializeUrl (nav_url n));
     NavigationEnd (nav_id n) (serializeUrl (nav_url n)) (serializeUrl appliedUrl)].
Proof.
  unfold runNavigate_forEach, guardStage. rewrite Hphase, Hrun, Hfalse. simpl.
  repeat split; try reflexivity. rewrite <- app_assoc. reflexivity.
Qed.

Lemma guard_reject_cancels_then_ends_witness :
  let '(r1, n1) := runNavigate_forEach ser no_outlets router_at_1 guarded_nav
                     (guardStage four_guard four_checks (Ok tt) "/g"%string state_a) in
  let '(r2, n2) := runNavigate_then ser r1 n1 in
  phase n2 = Resolved false /\
  currentRouterState r2 = currentRouterState router_at_1 /\
  currentUrlTree r2 = currentUrlTree router_at_1 /\
  ui r2 = ui router_at_1 /\ location_ops r2 = location_ops router_at_1 /\
  events r2 = events router_at_1 ++
    [NavigationCancel (nav_id guarded_nav) (ser (nav_url guarded_nav));
     NavigationEnd (nav_id guarded_nav) (ser (nav_url guarded_nav)) (ser "/g"%string)].
Proof.
  eapply (guard_reject_cancels_then_ends ser no_outlets four_guard four_checks (Ok tt)
            "/g"%string state_a router_at_1 guarded_nav state0 "/"%string);
    [reflexivity | vm_compute; reflexivity | reflexivity].
Defined.

(** C2: a navigation whose id differs from the counter at the entry of
    [runNavigate] is canceled there (resolving [false], pair untouched);
    one that is stale when its pipeline value arrives is canceled there
    (pair untouched, [NavigationCancel] then [NavigationEnd]); but a stale
    one whose pipeline fails instead restores the pair captured at its
    entry and rejects. The [forEach] callback changes the pair only by a
    commit, which requires the id to equal the counter. *)
Theorem commit_only_when_current :
  (forall (UrlTree : Type) (serializeUrl : UrlTree -> string) (r : Router UrlTree)
          (n : Nav UrlTree),
     phase n = Scheduled -> nav_id n <> navigationId r ->
     let '(r1, n1) := runNavigate_entry serializeUrl r n in
     phase n1 = Resolved false /\ navigationId r1 = navigationId r /\
     currentRouterState r1 = currentRouterState r /\ currentUrlTree r1 = currentUrlTree r /\
     events r1 = events r ++ [NavigationCancel (nav_id n) (serializeUrl (nav_url n))]) /\
  (forall (UrlTree : Type) (serializeUrl : UrlTree -> string) (r : Router UrlTree)
          (n : Nav UrlTree),
     phase n = Scheduled -> nav_id n = navigationId r ->
     runNavigate_entry serializeUrl r n =
     (r, with_phase n (Running (currentRouterState r) (currentUrlTree r)))) /\
  (forall (UrlTree : Type) (serializeUrl : UrlTree -> string) (template : nat -> OutletMap)
          (r : Router UrlTree) (n : Nav UrlTree) ss su out,
     phase n = Running ss su -> nav_id n <> navigationId r ->
     let '(r1, n1) := runNavigate_forEach serializeUrl template r n out in
     let '(r2, n2) := runNavigate_then serializeUrl r1 n1 in
     navigationId r2 = navigationId r /\
     match out with
     | PipelineFailed e =>
         phase n2 = Rejected e /\ currentRouterState r2 = ss /\ currentUrlTree r2 = su /\
         events r2 = events r ++ [NavigationError (nav_id n) (serializeUrl (nav_url n)) e]
     | PipelineValue u _ _ =>
         phase n2 = Resolved false /\
         currentRouterState r2 = currentRouterState r /\ currentUrlTree r2 = currentUrlTree r /\
         events r2 = events r ++
           [NavigationCancel (nav_id n) (serializeUrl (nav_url n));
            NavigationEnd (nav_id n) (serializeUrl (nav_url n)) (serializeUrl u)]
     end) /\
  (forall (UrlTree : Type) (serializeUrl : UrlTree -> string) (template : nat -> OutletMap)
          (r : Router UrlTree) (n : Nav UrlTree) ss su out,
     phase n = Running ss su ->
     let r1 := fst (runNavigate_forEach serializeUrl template r n out) in
     (currentRouterState r1, currentUrlTree r1) <> (currentRouterState r, currentUrlTree r) ->
     nav_id n = navigationId r /\
     out = PipelineValue (currentUrlTree r1) (currentRouterState r1) true).
Proof.
  split; [|split; [|split]].
  - intros UrlTree serializeUrl r n Hph Hid. unfold runNavigate_entry.
    rewrite Hph, (proj2 (Nat.eqb_neq _ _) Hid). simpl. repeat split; reflexivity.
  - intros UrlTree serializeUrl r n Hph Hid. unfold runNavigate_entry.
    rewrite Hph, Hid, Nat.eqb_refl. reflexivity.
  - intros UrlTree serializeUrl template r n ss su out Hph Hid. unfold runNavigate_forEach.
    rewrite Hph. destruct out as [e|u s b].
    + simpl. repeat split; reflexivity.
    + rewrite (proj2 (Nat.eqb_neq _ _) Hid), orb_true_r. simpl.
      repeat split; try reflexivity. rewrite <- app_assoc. reflexivity.
  - intros UrlTree serializeUrl template r n ss su out Hph. unfold runNavigate_forEach.
    rewrite Hph. destruct out as [e|u s b]; simpl.
    + intros H. exfalso. apply H. reflexivity.
    + destruct b; simpl; [|intros H; exfalso; apply H; reflexivity].
      destruct (Nat.eqb (nav_id n) (navigationId r)) eqn:E; simpl;
        [|intros H; exfalso; apply H; reflexivity].
      apply Nat.eqb_eq in E.
      destruct (activate template s (Some ss) (ui r)); simpl;
        [destruct (preventPushState n);
           [|destruct (isCurrentPathEqualTo _ _)]|]; intros _; split; auto.
Qed.

(** C2, counterexample: navigation 1 is superseded by navigation 2, which
    commits [state_a]; navigation 1's pipeline then fails, and its error
    handler puts back the pair it captured, undoing navigation 2's commit,
    emits [NavigationError] and rejects instead of resolving [false]. *)
Lemma superseded_failure_restores_stale_pair :
  let '(r6, r8, n1) := two_navs in
  navigationId r8 = 2 /\ nav_id n1 = 1 /\
  currentRouterState r6 = state_a /\ currentUrlTree r6 = "/b"%string /\
  currentRouterState r8 = state0 /\ currentUrlTree r8 = "/"%string /\
  phase n1 = Rejected (Thrown 5) /\
  events r8 = events r6 ++ [NavigationError 1 "/a" (Thrown 5)].
Proof. vm_compute. repeat split; reflexivity. Qed.

(** C3 (location modelled from the spec): the location is changed in two
    places only. At the entry of [runNavigate] a superseded navigation
    calls [go] with the serialized current url; at a commit that completed
    without [preventPushState], [replaceState] is used when the applied
    path is the current one and [go] otherwise. Scheduling, a cancel at the
    commit point, a failed stage, a throwing activation and the [.then]
    handlers leave the location alone. *)
Theorem location_updated_on_commit_or_stale_entry :
  (forall (UrlTree : Type) (serializeUrl : UrlTree -> string) (r : Router UrlTree) url prevent,
     location_ops (fst (scheduleNavigation serializeUrl r url prevent)) = location_ops r) /\
  (forall (UrlTree : Type) (serializeUrl : UrlTree -> string) (r : Router UrlTree)
          (n : Nav UrlTree),
     phase n = Scheduled ->
     location_ops (fst (runNavigate_entry serializeUrl r n)) =
     location_ops r ++
       (if Nat.eqb (nav_id n) (navigationId r) then []
        else [Go (serializeUrl (currentUrlTree r))])) /\
  (forall (UrlTree : Type) (serializeUrl : UrlTree -> string) (template : nat -> OutletMap)
          (r : Router UrlTree) (n : Nav UrlTree) ss su out,
     phase n = Running ss su ->
     location_ops (fst (runNavigate_forEach serializeUrl template r n out)) =
     location_ops r ++
       match out with
       | PipelineValue u s true =>
           if Nat.eqb (nav_id n) (navigationId r) then
             match activate template s (Some ss) (ui r) with
             | Done _ =>
                 if preventPushState n then []
                 else if String.eqb (location_path r) (serializeUrl u)
                      then [ReplaceState (serializeUrl u)] else [Go (serializeUrl u)]
             | Threw _ _ => []
             end
           else []
       | _ => []
       end) /\
  (forall (UrlTree : Type) (serializeUrl : UrlTree -> string) (r : Router UrlTree)
          (n : Nav UrlTree),
     location_ops (fst (runNavigate_then serializeUrl r n)) = location_ops r).
Proof.
  split; [|split; [|split]].
  - intros. simpl. reflexivity.
  - intros UrlTree serializeUrl r n Hph. unfold runNavigate_entry. rewrite Hph.
    destruct (Nat.eqb (nav_id n) (navigationId r)); simpl; [|reflexivity].
    symmetry. apply app_nil_r.
  - intros UrlTree serializeUrl template r n ss su out Hph. unfold runNavigate_forEach.
    rewrite Hph. destruct out as [e|u s b]; [symmetry; apply app_nil_r|].
    destruct b; simpl; [|symmetry; apply app_nil_r].
    destruct (Nat.eqb (nav_id n) (navigationId r)); simpl; [|symmetry; apply app_nil_r].
    destruct (activate template s (Some ss) (ui r)); simpl; [|symmetry; apply app_nil_r].
    destruct (preventPushState n); [symmetry; apply app_nil_r|].
    unfold isCurrentPathEqualTo. simpl.
    destruct (String.eqb (location_path r) (serializeUrl u)); reflexivity.
  - intros UrlTree serializeUrl r n. unfold runNavigate_then.
    destruct (phase n) as [| | ss su [ok u|e] | |]; reflexivity.
Qed.

(** C3, counterexample: a navigation superseded before its [runNavigate]
    starts is canceled, yet calls [location.go] with the current url. *)
Lemma superseded_entry_calls_location_go :
  let '(r, n1) := superseded_at_entry in
  phase n1 = Resolved false /\ location_ops r = [Go "/"%string] /\
  events r = [NavigationStart 1 "/a"; NavigationStart 2 "/b"; NavigationCancel 1 "/a"].
Proof. vm_compute. repeat split; reflexivity. Qed.

(** C9: when a stage fails, or when the activation throws at the commit
    point, the rejection handler sets both fields of the pair back to the
    values captured at the entry of [runNavigate], emits [NavigationError]
    with the cause and rejects with it; the UI keeps whatever the
    activation did before throwing. *)
Theorem failure_restores_pair_keeps_ui :
  (forall (UrlTree : Type) (serializeUrl : UrlTree -> string) (template : nat -> OutletMap)
          (r : Router UrlTree) (n : Nav UrlTree) ss su e,
     phase n = Running ss su ->
     let '(r1, n1) := runNavigate_forEach serializeUrl template r n (PipelineFailed e) in
     let '(r2, n2) := runNavigate_then serializeUrl r1 n1 in
     phase n2 = Rejected e /\ currentRouterState r2 = ss /\ currentUrlTree r2 = su /\
     ui r2 = ui r /\
     events r2 = events r ++ [NavigationError (nav_id n) (serializeUrl (nav_url n)) e]) /\
  (forall (UrlTree : Type) (serializeUrl : UrlTree -> string) (template : nat -> OutletMap)
          (r : Router UrlTree) (n : Nav UrlTree) ss su u s e st,
     phase n = Running ss su -> nav_id n = navigationId r ->
     activate template s (Some ss) (ui r) = Threw e st ->
     let '(r1, n1) := runNavigate_forEach serializeUrl template r n (PipelineValue u s true) in
     let '(r2, n2) := runNavigate_then serializeUrl r1 n1 in
     phase n2 = Rejected e /\ currentRouterState r2 = ss /\ currentUrlTree r2 = su /\
     ui r2 = st /\
     events r2 = events r ++ [NavigationError (nav_id n) (serializeUrl (nav_url n)) e]).
Proof.
  split.
  - intros UrlTree serializeUrl template r n ss su e Hph. unfold runNavigate_forEach.
    rewrite Hph. simpl. repeat split; reflexivity.
  - intros UrlTree serializeUrl template r n ss su u s e st Hph Hid Hact.
    unfold runNavigate_forEach. rewrite Hph, (proj2 (Nat.eqb_eq _ _) Hid). simpl.
    change (ui (set_pair r u s)) with (ui r). rewrite Hact. simpl.
    repeat split; reflexivity.
Qed.

(** C9, counterexample: the activation mounts the new primary component
    and then throws for the missing aux outlet; the pair is restored and
    the promise rejects, but the new component stays mounted in the root
    registry. *)
Lemma failed_activation_keeps_mount :
  let '(r, n) := failed_activation in
  phase n = Rejected (CannotFindOutlet "aux") /\
  currentRouterState r = state0 /\ currentUrlTree r = "/"%string /\
  outlets_get (fst (ui r)) "primary" = Some (Outlet (Some (1, a_ar)) OMNil) /\
  In (Mount [] "primary" a_ar) (snd (ui r)) /\
  fst (ui r) <> fst (ui router0).
Proof.
  vm_compute. repeat split; try reflexivity.
  - right. right. left. reflexivity.
  - discriminate.
Qed.

End NavClaims.

Module TreeProofs.
Import PreActivation ActivateRoutes Shapes.

(** Induction over trees, with a hypothesis per child. *)
Section TreeInd.
Variables (A : Type) (P : TreeNode A -> Prop).
Hypothesis HNode : forall v cs, Forall P cs -> P (TNode v cs).

Fixpoint TreeNode_ind' (t : TreeNode A) : P t :=
  match t with
  | TNode v cs =>
      HNode v cs ((fix all (cs : list (TreeNode A)) : Forall P cs :=
                     match cs with
                     | [] => Forall_nil P
                     | c :: cs' => Forall_cons c (TreeNode_ind' c) (all cs')
                     end) cs)
  end.
End TreeInd.

Lemma distinct_NoDup l : distinct l = true -> NoDup l.
Proof.
  induction l as [|k l IH]; simpl; intros H; [constructor|].
  apply andb_prop in H as [H1 H2]. constructor; [|auto].
  intros Hin. apply negb_true_iff in H1.
  assert (existsb (String.eqb k) l = true) as E
    by (apply existsb_exists; exists k; split; [exact Hin|apply String.eqb_refl]).
  congruence.
Qed.

Lemma js_set_fresh {V} (m : list (string * V)) k v :
  ~ In k (map fst m) -> js_set m k v = m ++ [(k, v)].
Proof.
  induction m as [|[k' v'] m IH]; simpl; intros H; [reflexivity|].
  destruct (String.eqb k k') eqn:E.
  - apply String.eqb_eq in E. subst. exfalso. apply H. left. reflexivity.
  - rewrite IH; auto.
Qed.

Lemma js_get_set {V} (m : list (string * V)) k v k' :
  js_get (js_set m k v) k' = if String.eqb k' k then Some v else js_get m k'.
Proof.
  induction m as [|[k0 v0] m IH]; simpl.
  - destruct (String.eqb k' k); reflexivity.
  - destruct (String.eqb k k0) eqn:E; simpl.
    + apply String.eqb_eq in E. subst. destruct (String.eqb k' k0); reflexivity.
    + rewrite IH. destruct (String.eqb k' k0) eqn:E'; [|reflexivity].
      apply String.eqb_eq in E'. subst. rewrite String.eqb_sym, E. reflexivity.
Qed.

Lemma js_get_In {V} (m : list (string * V)) k v :
  NoDup (map fst m) -> In (k, v) m -> js_get m k = Some v.
Proof.
  induction m as [|[k0 v0] m IH]; simpl; intros Hnd Hin; [destruct Hin|].
  inversion Hnd as [|? ? Hnot Hnd']; subst.
  destruct Hin as [Heq|Hin].
  - inversion Heq; subst. rewrite String.eqb_refl. reflexivity.
  - destruct (String.eqb k k0) eqn:E; [|auto].
    apply String.eqb_eq in E. subst. exfalso. apply Hnot.
    apply (in_map fst) in Hin. exact Hin.
Qed.

Lemma same_config_refl c : same_config c c = true.
Proof. destruct c; simpl; [apply Nat.eqb_refl|reflexivity]. Qed.

Lemma shallowEqual_refl p : NoDup (map fst p) -> shallowEqual p p = true.
Proof.
  intros Hnd. unfold shallowEqual. rewrite Nat.eqb_refl. simpl.
  apply forallb_forall. intros [k v] Hin. rewrite (js_get_In p k v Hnd Hin).
  apply String.eqb_refl.
Qed.

Lemma fold_js_set_fresh {A} (outletOf : A -> string) cs acc :
  NoDup (map fst acc ++ map (fun c => outletOf (value c)) cs) ->
  fold_left (fun m c => js_set m (outletOf (value c)) c) cs acc =
  acc ++ map (fun c => (outletOf (value c), c)) cs.
Proof.
  induction cs as [|c cs IH] in acc |- *; intros Hnd; simpl.
  - rewrite app_nil_r. reflexivity.
  - simpl in Hnd. rewrite js_set_fresh.
    + rewrite IH.
      * rewrite <- app_assoc. reflexivity.
      * rewrite map_app, <- app_assoc. exact Hnd.
    + intros Hin. apply NoDup_remove_2 in Hnd. apply Hnd. apply in_or_app. left. exact Hin.
Qed.

(** With distinct outlet names, [nodeChildrenAsMap] lists the children in
    order, keyed by their outlets. *)
Lemma nodeChildrenAsMap_distinct {A} (outletOf : A -> string) v cs :
  distinct (map (fun c => outletOf (value c)) cs) = true ->
  nodeChildrenAsMap outletOf (Some (TNode v cs)) = map (fun c => (outletOf (value c), c)) cs.
Proof.
  intros H. apply distinct_NoDup in H. unfold nodeChildrenAsMap. simpl.
  apply (fold_js_set_fresh outletOf cs []). exact H.
Qed.

(** The first navigation: nothing to compare with. *)
Lemma children_loop_fresh om path cs checks :
  Forall (fun t => forall om path checks,
            traverseRoutes t None om path checks = Ok (checks ++ activations path t)) cs ->
  children_loop (fun c prev acc => traverseRoutes c prev om (path ++ [value c]) acc) cs []
    checks = Ok (checks ++ flat_map (fun c => activations (path ++ [value c]) c) cs, []).
Proof.
  intros H. induction H as [|c cs Hc Hcs IH] in checks |- *; simpl.
  - rewrite app_nil_r. reflexivity.
  - rewrite Hc. simpl. rewrite IH, app_assoc. reflexivity.
Qed.

Lemma traverseRoutes_fresh t om path checks :
  traverseRoutes t None om path checks = Ok (checks ++ activations path t).
Proof.
  revert om path checks.
  induction t as [v cs IH] using TreeNode_ind'. intros om path checks.
  simpl. unfold traverseChildRoutes_with. simpl.
  destruct (component v);
    rewrite children_loop_fresh by exact IH; simpl; rewrite <- app_assoc; reflexivity.
Qed.

(** Traversing a tree against itself. *)
Lemma children_loop_same om path cs checks :
  Forall (fun t => snap_tree t = true -> forall om path checks,
            traverseRoutes t (Some t) om path checks = Ok checks) cs ->
  forallb snap_tree cs = true ->
  children_loop (fun c prev acc => traverseRoutes c prev om (path ++ [value c]) acc) cs
    (map (fun c => (outlet (value c), c)) cs) checks = Ok (checks, []).
Proof.
  intros H. induction H as [|c cs Hc Hcs IH]; simpl; intros Hk; [reflexivity|].
  apply andb_prop in Hk as [Hk1 Hk2].
  rewrite String.eqb_refl, (Hc Hk1). simpl. exact (IH Hk2).
Qed.

Lemma traverseRoutes_same t :
  snap_tree t = true -> forall om path checks, traverseRoutes t (Some t) om path checks = Ok checks.
Proof.
  induction t as [v cs IH] using TreeNode_ind'. intros Hk om path checks.
  unfold snap_tree in Hk. simpl in Hk.
  apply andb_prop in Hk as [Hk Hall]. apply andb_prop in Hk as [Hp Ho].
  change (forallb snap_tree cs = true) in Hall.
  pose proof (nodeChildrenAsMap_distinct outlet v cs Ho) as Hmap.
  simpl. rewrite same_config_refl, (shallowEqual_refl _ (distinct_NoDup _ Hp)). simpl.
  unfold traverseChildRoutes_with. rewrite Hmap.
  destruct (component v); rewrite children_loop_same by assumption; reflexivity.
Qed.

(** Activating a state against itself. *)
Lemma only_advances_refl st : only_advances st st.
Proof. split; [reflexivity|]. exists []. rewrite app_nil_r. split; auto. Qed.

Lemma only_advances_trans st1 st2 st3 :
  only_advances st1 st2 -> only_advances st2 st3 -> only_advances st1 st3.
Proof.
  intros [H1 [l1 [E1 F1]]] [H2 [l2 [E2 F2]]]. split; [congruence|].
  exists (l1 ++ l2). split; [rewrite E2, E1, app_assoc; reflexivity|].
  apply Forall_app. auto.
Qed.

Lemma only_advances_advance r st : only_advances st (advanceActivatedRoute r st).
Proof. split; [reflexivity|]. exists [Advance r]. split; [reflexivity|]. repeat constructor. eauto. Qed.

Section SameState.
Variable template : nat -> OutletMap.

Lemma act_loop_same p cs st :
  Forall (fun t => route_tree t = true -> forall p st,
            only_advances st (cres_st (activateRoutes template t (Some t) p st))) cs ->
  forallb route_tree cs = true ->
  let '(r, rest) := act_children_loop (fun c prev st' => activateRoutes template c prev p st') cs
                      (map (fun c => (outlet (snapshot (value c)), c)) cs) st in
  only_advances st (cres_st r) /\ (forall st', r = Done st' -> rest = []).
Proof.
  intros H. induction H as [|c cs Hc Hcs IH] in st |- *; simpl; intros Hk.
  - split; [apply only_advances_refl|reflexivity].
  - apply andb_prop in Hk as [Hk1 Hk2]. rewrite String.eqb_refl.
    pose proof (Hc Hk1 p st) as Hadv.
    destruct (activateRoutes template c (Some c) p st) as [st1|e st1]; simpl in Hadv.
    + specialize (IH st1 Hk2).
      destruct (act_children_loop _ cs _ st1) as [r rest].
      destruct IH as [IH1 IH2]. split; [|exact IH2].
      exact (only_advances_trans _ _ _ Hadv IH1).
    + split; [exact Hadv|discriminate].
Qed.

Lemma act_children_same v cs p st :
  Forall (fun t => route_tree t = true -> forall p st,
            only_advances st (cres_st (activateRoutes template t (Some t) p st))) cs ->
  distinct (map (fun c => outlet (snapshot (value c))) cs) = true ->
  forallb route_tree cs = true ->
  only_advances st (cres_st (activateChildRoutes_with
    (fun c prev p' st' => activateRoutes template c prev p' st') cs (Some (TNode v cs)) p st)).
Proof.
  intros IH Hd Hk. unfold activateChildRoutes_with.
  rewrite (nodeChildrenAsMap_distinct (fun r => outlet (snapshot r)) v cs Hd).
  pose proof (act_loop_same p cs st IH Hk) as Hl.
  destruct (act_children_loop _ cs _ st) as [r rest].
  destruct Hl as [Hl1 Hl2]. destruct r as [st1|e st1]; simpl in *; [|exact Hl1].
  rewrite (Hl2 st1 eq_refl). exact Hl1.
Qed.

Lemma activateRoutes_same t :
  route_tree t = true -> forall p st,
  only_advances st (cres_st (activateRoutes template t (Some t) p st)).
Proof.
  induction t as [v cs IH] using TreeNode_ind'. intros Hk p st.
  unfold route_tree in Hk. simpl in Hk. apply andb_prop in Hk as [Hd Hall].
  change (forallb route_tree cs = true) in Hall.
  simpl. rewrite Nat.eqb_refl.
  destruct (component (snapshot v)).
  - unfold with_outlet. destruct (getOutlet p v (advanceActivatedRoute v st)) as [o|e].
    + eapply only_advances_trans; [apply only_advances_advance|].
      apply act_children_same; assumption.
    + apply only_advances_advance.
  - eapply only_advances_trans; [apply only_advances_advance|].
    apply act_children_same; assumption.
Qed.
End SameState.

(** The guard phase records activate-checks with non-empty paths only. *)
Lemma bind_Ok {A B} (m : result A) (k : A -> result B) x :
  bind m k = Ok x -> exists a, m = Ok a /\ k a = Ok x.
Proof. destruct m; simpl; [eauto|discriminate]. Qed.







End TreeProofs.

Module NavProofs.
Import PreActivation ActivateRoutes Navigation Shapes.

Ltac split_matches :=
  repeat match goal with |- context [match ?x with _ => _ end] => destruct x end.

Lemma navigationId_entry {U} (ser : U -> string) r n :
  navigationId (fst (runNavigate_entry ser r n)) = navigationId r.
Proof. unfold runNavigate_entry. split_matches; reflexivity. Qed.

Lemma navigationId_forEach {U} (ser : U -> string) template r n out :
  navigationId (fst (runNavigate_forEach ser template r n out)) = navigationId r.
Proof. unfold runNavigate_forEach. split_matches; reflexivity. Qed.

Lemma navigationId_then {U} (ser : U -> string) r n :
  navigationId (fst (runNavigate_then ser r n)) = navigationId r.
Proof. unfold runNavigate_then. split_matches; reflexivity. Qed.

Lemma navigationId_run_ops {U} (ser : U -> string) template r ops :
  navigationId (run_ops ser template r ops) = navigationId r + schedules ops.
Proof.
  unfold run_ops, schedules. induction ops as [|op ops IH] in r |- *; simpl; [lia|].
  rewrite IH. destruct op; simpl.
  - lia.
  - rewrite navigationId_entry. reflexivity.
  - rewrite navigationId_forEach. reflexivity.
  - rewrite navigationId_then. reflexivity.
Qed.

(** A navigation scheduled and then run to completion without another
    navigation in between, whose commit-time activation completes. *)
Lemma navigation_commit {U} (ser : U -> string) template (r : Router U) url prevent u s st' :
  activate template s (Some (currentRouterState r)) (ui r) = Done st' ->
  let '(r1, n1) := scheduleNavigation ser r url prevent in
  let '(r2, n2) := runNavigate_entry ser r1 n1 in
  let '(r3, n3) := runNavigate_forEach ser template r2 n2 (PipelineValue u s true) in
  let '(r4, n4) := runNavigate_then ser r3 n3 in
  phase n4 = Resolved true /\ navigationId r4 = S (navigationId r) /\
  currentUrlTree r4 = u /\ currentRouterState r4 = s /\ ui r4 = st' /\
  events r4 = events r ++ [NavigationStart (S (navigationId r)) (ser url);
                           NavigationEnd (S (navigationId r)) (ser url) (ser u)] /\
  location_ops r4 = location_ops r ++
    (if prevent then []
     else [if String.eqb (location_path r) (ser u) then ReplaceState (ser u) else Go (ser u)]) /\
  location_path r4 = (if prevent then location_path r else ser u).
Proof.
  intros Hact. unfold runNavigate_entry, runNavigate_forEach, runNavigate_then. simpl.
  rewrite Nat.eqb_refl. simpl. rewrite Hact. simpl. rewrite Nat.eqb_refl. simpl.
  destruct prevent; simpl.
  - repeat split; try reflexivity; rewrite <- ?app_assoc; try reflexivity.
    rewrite app_nil_r. reflexivity.
  - unfold isCurrentPathEqualTo. simpl.
    destruct (String.eqb (location_path r) (ser u)); simpl;
      repeat split; try reflexivity; rewrite <- ?app_assoc; reflexivity.
Qed.

(** [closestLoadedConfig]: the selection made by its [filter]. *)
Definition lazy_sel {L} (lc : RouteConfig -> option L) (snapshot s : Snap) : bool :=
  match routeConfig s with
  | Some config =>
      match lc config with
      | Some _ => negb (Nat.eqb (snap_id s) (snap_id snapshot))
      | None => false
      end
  | None => false
  end.

Lemma closestLoadedConfig_sel {L} (lc : RouteConfig -> option L) path snapshot :
  closestLoadedConfig L lc path snapshot =
  match rev (filter (lazy_sel lc snapshot) path) with
  | [] => None
  | s :: _ => match routeConfig s with Some config => lc config | None => None end
  end.
Proof. reflexivity. Qed.

Lemma filter_none {A} (f : A -> bool) l : (forall x, In x l -> f x = false) -> filter f l = [].
Proof.
  induction l as [|x l IH]; simpl; intros H; [reflexivity|].
  rewrite (H x (or_introl eq_refl)). apply IH. auto.
Qed.

Lemma lazy_sel_false {L} (lc : RouteConfig -> option L) snapshot x :
  (snap_id x = snap_id snapshot \/
   match routeConfig x with Some c => lc c = None | None => True end) ->
  lazy_sel lc snapshot x = false.
Proof.
  unfold lazy_sel. intros [Hid|Hn].
  - rewrite Hid, Nat.eqb_refl. destruct (routeConfig x); [destruct (lc r)|]; reflexivity.
  - destruct (routeConfig x); [rewrite Hn|]; reflexivity.
Qed.

(** [nodeChildrenAsMap]: lookups. *)
Lemma fold_js_set_other {A} (outletOf : A -> string) cs acc k :
  (forall c, In c cs -> outletOf (value c) <> k) ->
  js_get (fold_left (fun m c => js_set m (outletOf (value c)) c) cs acc) k = js_get acc k.
Proof.
  induction cs as [|c cs IH] in acc |- *; simpl; intros H; [reflexivity|].
  rewrite IH by auto. rewrite TreeProofs.js_get_set.
  destruct (String.eqb k (outletOf (value c))) eqn:E; [|reflexivity].
  apply String.eqb_eq in E. exfalso. apply (H c); auto.
Qed.

End NavProofs.

Module RegistryProofs.
Import PreActivation ActivateRoutes Navigation Shapes.

(** [nodeChildrenAsMap]: a lookup finds the last child routed to the key. *)
Lemma fold_js_set_lookup {A} (outletOf : A -> string) cs acc k :
  js_get (fold_left (fun m c => js_set m (outletOf (value c)) c) cs acc) k =
  match rev (filter (fun c => String.eqb (outletOf (value c)) k) cs) with
  | c :: _ => Some c
  | [] => js_get acc k
  end.
Proof.
  induction cs as [|x cs IH] using rev_ind; [reflexivity|].
  rewrite fold_left_app. cbn [fold_left]. rewrite TreeProofs.js_get_set, filter_app.
  cbn [filter]. rewrite (String.eqb_sym (outletOf (value x)) k).
  destruct (String.eqb k (outletOf (value x))).
  - rewrite rev_app_distr. reflexivity.
  - rewrite app_nil_r. exact IH.
Qed.

Lemma js_set_nonempty {V} (m : list (string * V)) k v : js_set m k v <> [].
Proof. destruct m as [|[k' v'] m]; simpl; [discriminate|destruct (String.eqb k k'); discriminate]. Qed.

Lemma fold_js_set_nonempty {A} (outletOf : A -> string) cs acc :
  acc <> [] -> fold_left (fun m c => js_set m (outletOf (value c)) c) cs acc <> [].
Proof.
  induction cs as [|c cs IH] in acc |- *; simpl; [auto|].
  intros _. apply IH, js_set_nonempty.
Qed.

Lemma deactivate_remaining_null prev checks :
  prev <> [] -> deactivate_remaining prev None checks = Err TypeError.
Proof. destruct prev as [|[k v] prev]; [congruence|reflexivity]. Qed.

(** Registry updates and lookups. *)
Lemma outlets_get_update m n g n' :
  outlets_get (outlets_update m n g) n' =
  if String.eqb n' n then option_map g (outlets_get m n) else outlets_get m n'.
Proof.
  induction m as [|n0 o rest IH]; simpl.
  - destruct (String.eqb n' n); reflexivity.
  - destruct (String.eqb n n0) eqn:E; simpl.
    + apply String.eqb_eq in E. subst n0.
      destruct (String.eqb n' n); reflexivity.
    + rewrite IH. destruct (String.eqb n' n0) eqn:E1; destruct (String.eqb n' n) eqn:E2;
        try reflexivity.
      apply String.eqb_eq in E1, E2. subst. rewrite String.eqb_refl in E. discriminate.
Qed.

Lemma map_at_update m p f :
  map_at (update_map_at m p f) p = f (map_at m p) \/
  (map_at (update_map_at m p f) p = OMNil /\ map_at m p = OMNil).
Proof.
  induction p as [|n p IH] in m |- *; simpl; [left; reflexivity|].
  rewrite outlets_get_update, String.eqb_refl.
  destruct (outlets_get m n) as [[a om]|]; simpl.
  - apply IH.
  - right; split; reflexivity.
Qed.

Lemma deact_map_get p m n :
  (outlets_get (fst (deact_map p m)) n = None <-> outlets_get m n = None) /\
  (forall o, outlets_get (fst (deact_map p m)) n = Some o -> isActivated o = false).
Proof.
  induction m as [|n0 o rest IH]; simpl.
  - split; [tauto|discriminate].
  - destruct (deact_outlet p n0 o) as [o' a1] eqn:Eo.
    assert (Ho : isActivated o' = false).
    { destruct o as [[x|] om]; simpl in Eo; inversion Eo; reflexivity. }
    destruct (deact_map p rest) as [rest' a2]. simpl in *.
    destruct (String.eqb n n0).
    + split; [split; discriminate|]. intros o0 H. inversion H; subst. exact Ho.
    + exact IH.
Qed.

(** The guard phase only ever fails with a TypeError. *)
Lemma deactivate_remaining_err prev om checks e :
  deactivate_remaining prev om checks = Err e -> e = TypeError.
Proof.
  induction prev as [|[k v] prev IH] in checks |- *; simpl; [discriminate|].
  destruct om as [m|]; [apply IH|congruence].
Qed.

Lemma children_loop_err tr cs prev checks e :
  (forall c prev acc e, In c cs -> tr c prev acc = Err e -> e = TypeError) ->
  children_loop tr cs prev checks = Err e -> e = TypeError.
Proof.
  induction cs as [|c cs IH] in prev, checks |- *; simpl; intros Htr H; [discriminate|].
  destruct (tr c (js_get prev (outlet (value c))) checks) as [a|e'] eqn:E; simpl in H.
  - eapply IH; [|exact H]. intros c' p' acc e0 Hin. apply Htr. right. exact Hin.
  - inversion H; subst. eapply Htr; [left; reflexivity|exact E].
Qed.

Lemma traverseRoutes_err t : forall curr om path checks e,
  traverseRoutes t curr om path checks = Err e -> e = TypeError.
Proof.
  induction t as [v cs IH] using TreeProofs.TreeNode_ind'.
  intros curr om path checks e H.
  assert (Hch : forall curr' om' acc,
            traverseChildRoutes_with
              (fun c prev om acc' => traverseRoutes c prev om (path ++ [value c]) acc')
              cs curr' om' acc = Err e -> e = TypeError).
  { intros curr' om' acc E. unfold traverseChildRoutes_with in E.
    destruct (children_loop _ cs _ acc) as [res|e'] eqn:El; simpl in E.
    - eapply deactivate_remaining_err. exact E.
    - inversion E; subst. eapply children_loop_err; [|exact El].
      intros c p acc' e0 Hin. rewrite Forall_forall in IH. apply (IH c Hin). }
  destruct curr as [[c ccs]|]; simpl in H.
  - destruct (same_config (routeConfig v) (routeConfig c)).
    + destruct (negb (shallowEqual (params v) (params c))).
      * destruct (match om with Some m => outlets_get m (outlet v) | None => None end)
          as [o|]; simpl in H; [|inversion H; reflexivity].
        destruct (component v); exact (Hch _ _ _ H).
      * simpl in H. destruct (component v); exact (Hch _ _ _ H).
    + destruct (component c).
      * simpl in H. destruct (component v); exact (Hch _ _ _ H).
      * destruct om as [m|]; simpl in H; [|inversion H; reflexivity].
        destruct (component v); exact (Hch _ _ _ H).
  - destruct (component v); exact (Hch _ _ _ H).
Qed.

Lemma js_get_delete {V} (m : list (string * V)) k k' :
  k <> k' -> js_get (js_delete m k') k = js_get m k.
Proof.
  intros Hne. induction m as [|[k0 v0] m IH]; simpl; [reflexivity|].
  destruct (String.eqb k' k0) eqn:E.
  - apply String.eqb_eq in E. subst k0.
    rewrite (proj2 (String.eqb_neq k k') Hne). reflexivity.
  - simpl. rewrite IH. reflexivity.
Qed.

(** The previous children that no future child claims survive the loop. *)
Lemma children_loop_keeps tr cs prev checks res k :
  children_loop tr cs prev checks = Ok res ->
  (forall f, In f cs -> outlet (value f) <> k) ->
  js_get (snd res) k = js_get prev k.
Proof.
  induction cs as [|c cs IH] in prev, checks |- *; simpl; intros H Hk.
  - inversion H; subst. reflexivity.
  - apply TreeProofs.bind_Ok in H as [a [_ E]].
    rewrite (IH _ _ E) by (intros f Hf; apply Hk; right; exact Hf).
    apply js_get_delete. intros Heq. apply (Hk c); [left; reflexivity|symmetry; exact Heq].
Qed.

End RegistryProofs.

(* ================================================================== *)
(** * Further properties of the code *)

Module Extras.
Import PreActivation ActivateRoutes Navigation Shapes.

(** X1: on the first navigation (no current state), [traverse] records an
    activate-check for every node below the root, in pre-order, each with
    its path from the root, and no deactivate-check. *)
Theorem traverse_first_navigation future m :
  traverse future None m =
  Ok (flat_map (fun c => activations [value future; value c] c) (children future)).
Proof.
  unfold traverse, traverseChildRoutes, traverseChildRoutes_with. cbv beta.
  cbn [nodeChildrenAsMap].
  rewrite TreeProofs.children_loop_fresh.
  - reflexivity.
  - apply Forall_forall. intros t _ om path checks. apply TreeProofs.traverseRoutes_fresh.
Qed.

(** X2: traversing a snapshot tree against itself records no check (its
    parameters have distinct keys and siblings use distinct outlets). *)
Theorem traverse_same_tree t m : snap_tree t = true -> traverse t (Some t) m = Ok [].
Proof.
  intros Hk. destruct t as [v cs].
  unfold snap_tree in Hk. simpl in Hk.
  apply andb_prop in Hk as [Hk Hall]. apply andb_prop in Hk as [_ Ho].
  change (forallb snap_tree cs = true) in Hall.
  unfold traverse, traverseChildRoutes, traverseChildRoutes_with. cbv beta. cbn [children value].
  rewrite (TreeProofs.nodeChildrenAsMap_distinct outlet v cs Ho).
  rewrite TreeProofs.children_loop_same; [reflexivity| |exact Hall].
  apply Forall_forall. intros c _. apply TreeProofs.traverseRoutes_same.
Qed.

Lemma traverse_same_tree_witness :
  snap_tree (TNode Fixtures.root_snap [TNode (Fixtures.team_snap 1 "33"%string) []]) = true /\
  traverse (TNode Fixtures.root_snap [TNode (Fixtures.team_snap 1 "33"%string) []])
    (Some (TNode Fixtures.root_snap [TNode (Fixtures.team_snap 1 "33"%string) []])) OMNil = Ok [].
Proof.
  split; [reflexivity|].
  apply (traverse_same_tree (TNode Fixtures.root_snap [TNode (Fixtures.team_snap 1 "33"%string) []])
           OMNil).
  reflexivity.
Defined.

(** X3: activating a router state against itself mounts and unmounts
    nothing: the registries are untouched and only route advancements are
    logged, whether the activation completes or throws. *)
Theorem activate_same_state template t st :
  route_tree t = true -> only_advances st (cres_st (activate template t (Some t) st)).
Proof.
  intros Hk. destruct t as [v cs].
  unfold route_tree in Hk. simpl in Hk. apply andb_prop in Hk as [Hd Hall].
  change (forallb route_tree cs = true) in Hall.
  unfold activate, activateChildRoutes. cbn [value children].
  eapply TreeProofs.only_advances_trans; [apply TreeProofs.only_advances_advance|].
  apply TreeProofs.act_children_same; [|exact Hd|exact Hall].
  apply Forall_forall. intros c _. apply TreeProofs.activateRoutes_same.
Qed.

Lemma activate_same_state_witness :
  route_tree Fixtures.state_a_aux = true /\
  only_advances (ui Fixtures.router0)
    (cres_st (activate Fixtures.no_outlets Fixtures.state_a_aux (Some Fixtures.state_a_aux)
                (ui Fixtures.router0))).
Proof.
  split; [reflexivity|].
  apply (activate_same_state Fixtures.no_outlets Fixtures.state_a_aux (ui Fixtures.router0)).
  reflexivity.
Defined.

(** X4: when the only current child is vacated (the future node has no
    children) and its outlet holds a component without nested outlets,
    [traverseChildRoutes] records one deactivate-check carrying the tree
    node, and [checkGuards] then answers [true] without calling any guard,
    whatever can-deactivate guards the child's route config lists. *)
Theorem vacated_outlet_skips_deactivate_guards f c v m path comp ar guard :
  outlets_get m (outlet (value v)) = Some (Outlet (Some (comp, ar)) OMNil) ->
  traverseChildRoutes (TNode f []) (Some (TNode c [v])) (Some m) path [] =
    Ok [CanDeactivate (Some comp) (RTreeNode v)] /\
  run guard (checkGuards [CanDeactivate (Some comp) (RTreeNode v)]) = Ok (GBool true, []).
Proof.
  intros Ho. split; [|reflexivity].
  destruct v as [sv vcs]. simpl in Ho.
  unfold traverseChildRoutes, traverseChildRoutes_with. simpl. rewrite Ho. reflexivity.
Qed.

Lemma vacated_outlet_skips_deactivate_guards_witness :
  outlets_get Fixtures.leaving_map (outlet (value (TNode Fixtures.leaving_snap []))) =
    Some (Outlet (Some (5, mkAR 5 Fixtures.leaving_snap)) OMNil) /\
  traverseChildRoutes (TNode Fixtures.root_snap []) (Some (TNode Fixtures.root_snap
      [TNode Fixtures.leaving_snap []])) (Some Fixtures.leaving_map) [Fixtures.root_snap] [] =
    Ok [CanDeactivate (Some 5) (RTreeNode (TNode Fixtures.leaving_snap []))] /\
  run (fun _ => GBool false) (checkGuards [CanDeactivate (Some 5)
      (RTreeNode (TNode Fixtures.leaving_snap []))]) = Ok (GBool true, []).
Proof.
  split; [reflexivity|].
  apply (vacated_outlet_skips_deactivate_guards Fixtures.root_snap Fixtures.root_snap
           (TNode Fixtures.leaving_snap []) Fixtures.leaving_map [Fixtures.root_snap] 5
           (mkAR 5 Fixtures.leaving_snap) (fun _ => GBool false)).
  reflexivity.
Defined.

(** X5: looking up a key in [nodeChildrenAsMap] gives the last child
    routed to that outlet (a later sibling overwrites an earlier one), and
    nothing when no child is routed there or the node is null. *)
Theorem nodeChildrenAsMap_lookup {A} (outletOf : A -> string) node k :
  js_get (nodeChildrenAsMap outletOf node) k =
  match node with
  | None => None
  | Some n =>
      match rev (filter (fun c => String.eqb (outletOf (value c)) k) (children n)) with
      | c :: _ => Some c
      | [] => None
      end
  end.
Proof.
  destruct node as [n|]; [|reflexivity].
  unfold nodeChildrenAsMap. exact (RegistryProofs.fold_js_set_lookup outletOf (children n) [] k).
Qed.

(** X6: a popstate change to a url that differs from the current one
    schedules a navigation; run to completion, it commits without touching
    the location (no [go], no [replaceState]); a repeated change event for
    the same url is then ignored. *)
Theorem popstate_commit_keeps_location {U} (ser : U -> string) (parse : string -> U)
  (toString : U -> string) template (r : Router U) url u s st' :
  toString (currentUrlTree r) <> toString (parse url) ->
  toString u = toString (parse url) ->
  activate template s (Some (currentRouterState r)) (ui r) = Done st' ->
  match onLocationChange ser parse toString r url true with
  | (r1, Some n1) =>
      let '(r2, n2) := runNavigate_entry ser r1 n1 in
      let '(r3, n3) := runNavigate_forEach ser template r2 n2 (PipelineValue u s true) in
      let '(r4, n4) := runNavigate_then ser r3 n3 in
      phase n4 = Resolved true /\ currentUrlTree r4 = u /\
      location_ops r4 = location_ops r /\ location_path r4 = location_path r /\
      onLocationChange ser parse toString r4 url true = (r4, None)
  | (_, None) => False
  end.
Proof.
  intros Hne Hu Hact.
  pose proof (NavProofs.navigation_commit ser template r (parse url) true u s st' Hact) as Hc.
  unfold onLocationChange at 1. apply String.eqb_neq in Hne. rewrite Hne. cbn [negb].
  revert Hc. destruct (scheduleNavigation ser r (parse url) true) as [r1 n1]. cbv beta iota.
  destruct (runNavigate_entry ser r1 n1) as [r2 n2]. cbv beta iota.
  destruct (runNavigate_forEach ser template r2 n2 (PipelineValue u s true)) as [r3 n3].
  cbv beta iota.
  destruct (runNavigate_then ser r3 n3) as [r4 n4]. cbv beta iota.
  intros (Hph & _ & Hcur & _ & _ & _ & Hops & Hpath).
  rewrite app_nil_r in Hops.
  split; [exact Hph|]. split; [exact Hcur|]. split; [exact Hops|]. split; [exact Hpath|].
  unfold onLocationChange. rewrite Hcur, Hu, String.eqb_refl. reflexivity.
Qed.

Lemma popstate_commit_keeps_location_witness :
  match onLocationChange Fixtures.ser Fixtures.ser Fixtures.ser Fixtures.router0 "/a"%string true with
  | (r1, Some n1) =>
      let '(r2, n2) := runNavigate_entry Fixtures.ser r1 n1 in
      let '(r3, n3) := runNavigate_forEach Fixtures.ser Fixtures.no_outlets r2 n2
                         (PipelineValue "/a"%string Fixtures.state_a true) in
      let '(r4, n4) := runNavigate_then Fixtures.ser r3 n3 in
      phase n4 = Resolved true /\ currentUrlTree r4 = "/a"%string /\
      location_ops r4 = location_ops Fixtures.router0 /\
      location_path r4 = location_path Fixtures.router0 /\
      onLocationChange Fixtures.ser Fixtures.ser Fixtures.ser r4 "/a"%string true = (r4, None)
  | (_, None) => False
  end.
Proof.
  apply (popstate_commit_keeps_location Fixtures.ser Fixtures.ser Fixtures.ser Fixtures.no_outlets
           Fixtures.router0 "/a"%string "/a"%string Fixtures.state_a Fixtures.ui_a).
  - simpl. discriminate.
  - reflexivity.
  - vm_compute. reflexivity.
Defined.

(** X7: [navigateByUrl] with a string parses it and schedules a push
    navigation; run to completion with a completing activation, it
    resolves [true], advances the counter by one, commits the applied url
    and state, emits [NavigationStart] then [NavigationEnd], and pushes the
    applied url to the location ([replaceState] when it is already the
    current path). *)
Theorem navigateByUrl_commit {U} (ser : U -> string) (parse : string -> U) template
  (r : Router U) url u s st' :
  activate template s (Some (currentRouterState r)) (ui r) = Done st' ->
  let '(r1, n1) := navigateByUrl ser parse r (UrlStr url) in
  let '(r2, n2) := runNavigate_entry ser r1 n1 in
  let '(r3, n3) := runNavigate_forEach ser template r2 n2 (PipelineValue u s true) in
  let '(r4, n4) := runNavigate_then ser r3 n3 in
  phase n4 = Resolved true /\ navigationId r4 = S (navigationId r) /\
  currentUrlTree r4 = u /\ currentRouterState r4 = s /\ ui r4 = st' /\
  events r4 = events r ++ [NavigationStart (S (navigationId r)) (ser (parse url));
                           NavigationEnd (S (navigationId r)) (ser (parse url)) (ser u)] /\
  location_ops r4 = location_ops r ++
    [if String.eqb (location_path r) (ser u) then ReplaceState (ser u) else Go (ser u)] /\
  location_path r4 = ser u.
Proof.
  intros Hact. exact (NavProofs.navigation_commit ser template r (parse url) false u s st' Hact).
Qed.

Lemma navigateByUrl_commit_witness :
  activate Fixtures.no_outlets Fixtures.state_a (Some (currentRouterState Fixtures.router0))
    (ui Fixtures.router0) = Done Fixtures.ui_a /\
  let '(r1, n1) := navigateByUrl Fixtures.ser Fixtures.ser Fixtures.router0 (UrlStr "/a"%string) in
  let '(r2, n2) := runNavigate_entry Fixtures.ser r1 n1 in
  let '(r3, n3) := runNavigate_forEach Fixtures.ser Fixtures.no_outlets r2 n2
                     (PipelineValue "/a"%string Fixtures.state_a true) in
  let '(r4, n4) := runNavigate_then Fixtures.ser r3 n3 in
  phase n4 = Resolved true /\ navigationId r4 = 1 /\
  currentUrlTree r4 = "/a"%string /\ currentRouterState r4 = Fixtures.state_a /\
  ui r4 = Fixtures.ui_a /\
  events r4 = [NavigationStart 1 "/a"%string; NavigationEnd 1 "/a"%string "/a"%string] /\
  location_ops r4 = [Go "/a"%string] /\ location_path r4 = "/a"%string.
Proof.
  split; [vm_compute; reflexivity|].
  apply (navigateByUrl_commit Fixtures.ser Fixtures.ser Fixtures.no_outlets Fixtures.router0
           "/a"%string "/a"%string Fixtures.state_a Fixtures.ui_a).
  vm_compute. reflexivity.
Defined.

(** X8: the initial navigation goes to the location's current path; when
    the applied url serializes to that path, the commit replaces the
    current history entry instead of pushing a new one. *)
Theorem initialNavigation_replaces_entry {U} (ser : U -> string) (parse : string -> U) template
  (r : Router U) u s st' :
  activate template s (Some (currentRouterState r)) (ui r) = Done st' ->
  ser u = location_path r ->
  let '(r1, n1) := initialNavigation ser parse r in
  let '(r2, n2) := runNavigate_entry ser r1 n1 in
  let '(r3, n3) := runNavigate_forEach ser template r2 n2 (PipelineValue u s true) in
  let '(r4, n4) := runNavigate_then ser r3 n3 in
  phase n4 = Resolved true /\
  events r4 = events r ++
    [NavigationStart (S (navigationId r)) (ser (parse (location_path r)));
     NavigationEnd (S (navigationId r)) (ser (parse (location_path r))) (location_path r)] /\
  location_ops r4 = location_ops r ++ [ReplaceState (location_path r)] /\
  location_path r4 = location_path r.
Proof.
  intros Hact Hu.
  pose proof (NavProofs.navigation_commit ser template r (parse (location_path r)) false u s st'
                Hact) as Hc.
  rewrite Hu, String.eqb_refl in Hc.
  unfold initialNavigation, navigateByUrl.
  revert Hc. destruct (scheduleNavigation ser r (parse (location_path r)) false) as [r1 n1].
  cbv beta iota zeta.
  destruct (runNavigate_entry ser r1 n1) as [r2 n2]. cbv beta iota.
  destruct (runNavigate_forEach ser template r2 n2 (PipelineValue u s true)) as [r3 n3].
  cbv beta iota.
  destruct (runNavigate_then ser r3 n3) as [r4 n4]. cbv beta iota.
  intros (Hph & _ & _ & _ & _ & Hev & Hops & Hpath). auto.
Qed.

Lemma initialNavigation_replaces_entry_witness :
  let '(r1, n1) := initialNavigation Fixtures.ser Fixtures.ser Fixtures.router0 in
  let '(r2, n2) := runNavigate_entry Fixtures.ser r1 n1 in
  let '(r3, n3) := runNavigate_forEach Fixtures.ser Fixtures.no_outlets r2 n2
                     (PipelineValue "/"%string Fixtures.state_a true) in
  let '(r4, n4) := runNavigate_then Fixtures.ser r3 n3 in
  phase n4 = Resolved true /\
  events r4 = [NavigationStart 1 "/"%string; NavigationEnd 1 "/"%string "/"%string] /\
  location_ops r4 = [ReplaceState "/"%string] /\ location_path r4 = "/"%string.
Proof.
  apply (initialNavigation_replaces_entry Fixtures.ser Fixtures.ser Fixtures.no_outlets
           Fixtures.router0 "/"%string Fixtures.state_a Fixtures.ui_a).
  - vm_compute. reflexivity.
  - reflexivity.
Defined.

(** X9: the navigation counter counts scheduled navigations: after any
    sequence of router steps it has grown by the number of navigations
    scheduled; a navigation stays current (its id equals the counter)
    exactly as long as no other navigation has been scheduled after it. *)
Theorem navigation_counter {U} (ser : U -> string) template (r : Router U) url prevent ops :
  let '(r1, n) := scheduleNavigation ser r url prevent in
  nav_id n = S (navigationId r) /\
  navigationId (run_ops ser template r1 ops) = nav_id n + schedules ops /\
  (nav_id n = navigationId (run_ops ser template r1 ops) <-> schedules ops = 0).
Proof.
  cbn [scheduleNavigation]. rewrite NavProofs.navigationId_run_ops. cbn. lia.
Qed.

(** X10: [closestLoadedConfig] answers the loaded configuration of the
    nearest route on the path that has one, the node itself excepted:
    routes after it on the path are skipped when they are the node or
    have no loaded configuration. *)
Theorem closestLoadedConfig_nearest {L} (lc : RouteConfig -> option L) pre a post snapshot cfg l :
  routeConfig a = Some cfg -> lc cfg = Some l -> snap_id a <> snap_id snapshot ->
  (forall x, In x post -> snap_id x = snap_id snapshot \/
     match routeConfig x with Some c => lc c = None | None => True end) ->
  closestLoadedConfig L lc (pre ++ a :: post) snapshot = Some l.
Proof.
  intros Ha Hl Hid Hpost. rewrite NavProofs.closestLoadedConfig_sel, filter_app. cbn [filter].
  assert (Hsel : NavProofs.lazy_sel lc snapshot a = true).
  { unfold NavProofs.lazy_sel. rewrite Ha, Hl. apply negb_true_iff, Nat.eqb_neq. exact Hid. }
  rewrite Hsel, (NavProofs.filter_none _ post)
    by (intros x Hx; apply NavProofs.lazy_sel_false; auto).
  rewrite rev_app_distr. cbn. rewrite Ha. exact Hl.
Qed.

Lemma closestLoadedConfig_nearest_witness :
  closestLoadedConfig nat Fixtures.loaded
    ([Fixtures.root_snap] ++ Fixtures.lazy_snap :: [Fixtures.guarded_snap 2])
    (Fixtures.guarded_snap 2) = Some 80.
Proof.
  apply (closestLoadedConfig_nearest Fixtures.loaded [Fixtures.root_snap] Fixtures.lazy_snap
           [Fixtures.guarded_snap 2] (Fixtures.guarded_snap 2) (mkRouteConfig 8 [] [] []) 80).
  - reflexivity.
  - reflexivity.
  - simpl. discriminate.
  - intros x [<-|[]]. left. reflexivity.
Defined.

(** X11: the node's own loaded configuration is never used by
    [closestLoadedConfig] (appending the node to the path changes
    nothing), and without a loaded configuration on another route of the
    path the answer is [null]. *)
Theorem closestLoadedConfig_skips_self {L} (lc : RouteConfig -> option L) path snapshot :
  closestLoadedConfig L lc (path ++ [snapshot]) snapshot = closestLoadedConfig L lc path snapshot /\
  ((forall x, In x path -> snap_id x = snap_id snapshot \/
      match routeConfig x with Some c => lc c = None | None => True end) ->
   closestLoadedConfig L lc path snapshot = None).
Proof.
  split.
  - rewrite !NavProofs.closestLoadedConfig_sel, filter_app. cbn [filter].
    rewrite NavProofs.lazy_sel_false by (left; reflexivity).
    rewrite app_nil_r. reflexivity.
  - intros H. rewrite NavProofs.closestLoadedConfig_sel, NavProofs.filter_none; [reflexivity|].
    intros x Hx. apply NavProofs.lazy_sel_false. auto.
Qed.



(** X13: a reused route with a component whose outlet is missing from the
    parent registry hands a [null] registry to its children; if a current
    child is dropped (no future child is routed to its outlet), deactivating
    it reads [_outlets] of [null] and [traverseRoutes] throws a TypeError,
    even with unchanged parameters and whatever children are kept. *)
Theorem reused_missing_outlet_dropped_child_throws future fcs curr ccs c pom path checks :
  same_config (routeConfig future) (routeConfig curr) = true ->
  shallowEqual (params future) (params curr) = true ->
  component future <> None ->
  match pom with Some m => outlets_get m (outlet future) = None | None => True end ->
  In c ccs ->
  (forall f, In f fcs -> outlet (value f) <> outlet (value c)) ->
  traverseRoutes (TNode future fcs) (Some (TNode curr ccs)) pom path checks = Err TypeError.
Proof.
  intros Hc Hp Hcomp Hmiss Hin Hdrop.
  cbn [traverseRoutes option_map value]. rewrite Hc, Hp. cbn [negb bind].
  destruct (component future) as [x|]; [|congruence].
  assert (Hnull : match pom with Some m => outlets_get m (outlet future) | None => None end = None)
    by (destruct pom; [exact Hmiss|reflexivity]).
  rewrite Hnull. cbn [option_map]. unfold traverseChildRoutes_with.
  assert (Hprev : js_get (nodeChildrenAsMap outlet (Some (TNode curr ccs))) (outlet (value c)) <> None).
  { unfold nodeChildrenAsMap. cbn [children].
    rewrite RegistryProofs.fold_js_set_lookup.
    assert (Hf : In c (filter (fun c' => String.eqb (outlet (value c')) (outlet (value c))) ccs))
      by (apply filter_In; split; [exact Hin|apply String.eqb_refl]).
    apply in_rev in Hf.
    destruct (rev (filter _ ccs)); [destruct Hf|discriminate]. }
  destruct (children_loop _ fcs _ checks) as [res|e] eqn:El; cbn [bind].
  - apply RegistryProofs.deactivate_remaining_null.
    intros Hnil. apply Hprev.
    rewrite <- (RegistryProofs.children_loop_keeps _ _ _ _ _ _ El Hdrop), Hnil. reflexivity.
  - f_equal. eapply RegistryProofs.children_loop_err; [|exact El].
    intros c' p acc e0 _. apply RegistryProofs.traverseRoutes_err.
Qed.

Lemma reused_missing_outlet_dropped_child_throws_witness :
  traverseRoutes (TNode (Fixtures.team_snap 2 "33"%string) [TNode (Fixtures.guarded_snap 3) []])
    (Some (TNode (Fixtures.team_snap 1 "33"%string)
             [TNode (Fixtures.guarded_snap 3) []; TNode Fixtures.aux_snap []]))
    (Some OMNil) [Fixtures.root_snap; Fixtures.team_snap 2 "33"%string] [] = Err TypeError.
Proof.
  apply (reused_missing_outlet_dropped_child_throws (Fixtures.team_snap 2 "33"%string)
           [TNode (Fixtures.guarded_snap 3) []] (Fixtures.team_snap 1 "33"%string)
           [TNode (Fixtures.guarded_snap 3) []; TNode Fixtures.aux_snap []]
           (TNode Fixtures.aux_snap []) (Some OMNil)
           [Fixtures.root_snap; Fixtures.team_snap 2 "33"%string] []).
  - reflexivity.
  - reflexivity.
  - discriminate.
  - reflexivity.
  - right. left. reflexivity.
  - intros f [<-|[]]. simpl. discriminate.
Defined.

(** X14: activating a new route with a component whose outlet is missing
    from the registry throws [CannotFindOutlet] with the outlet's name,
    after the route was advanced and before anything is mounted. *)
Theorem activateRoutes_missing_outlet_throws template v cs p st comp :
  component (snapshot v) = Some comp ->
  outlets_get (map_at (fst st) p) (outlet (snapshot v)) = None ->
  activateRoutes template (TNode v cs) None p st =
    Threw (CannotFindOutlet (outlet (snapshot v))) (advanceActivatedRoute v st).
Proof.
  intros Hc Hm. cbn [activateRoutes cbind]. rewrite Hc.
  unfold with_outlet, getOutlet. cbn [advanceActivatedRoute fst]. rewrite Hm. reflexivity.
Qed.

Lemma activateRoutes_missing_outlet_throws_witness :
  activateRoutes Fixtures.no_outlets (TNode Fixtures.aux_ar []) None [] (ui Fixtures.router0) =
    Threw (CannotFindOutlet "aux"%string)
      (fst (ui Fixtures.router0), snd (ui Fixtures.router0) ++ [Advance Fixtures.aux_ar]).
Proof.
  apply (activateRoutes_missing_outlet_throws Fixtures.no_outlets Fixtures.aux_ar [] []
           (ui Fixtures.router0) 2).
  - reflexivity.
  - reflexivity.
Defined.

(** X15: after [deactivateOutletMap] (commit phase) on the registry at [p],
    that registry keeps the same outlet names and none of its outlets is
    activated. *)
Theorem deactivateOutletMap_clears_registry p st n :
  (outlets_get (map_at (fst (ActivateRoutes.deactivateOutletMap p st)) p) n = None <->
   outlets_get (map_at (fst st) p) n = None) /\
  (forall o, outlets_get (map_at (fst (ActivateRoutes.deactivateOutletMap p st)) p) n = Some o ->
     isActivated o = false).
Proof.
  destruct st as [root log]. unfold ActivateRoutes.deactivateOutletMap.
  pose proof (RegistryProofs.deact_map_get p (map_at root p) n) as Hd.
  destruct (deact_map p (map_at root p)) as [m' acts] eqn:E. cbn [fst] in *.
  destruct (RegistryProofs.map_at_update root p (fun _ => m')) as [H|[H1 H2]].
  - rewrite H. exact Hd.
  - rewrite H1, H2. split; [tauto|discriminate].
Qed.

End Extras.
